(** * Watermark-mask extraction: a shallow embedding of
      [remove_video_watermark.py] and the properties of its mask pipeline.

    The development follows the Python source function by function:
    [normalize], [extract_keyframes], [extract_frames],
    [extract_watermark_mask] and the part of [main] that chains them.

    Modelling conventions.
    - numpy [float64] values are idealised as exact rationals ([Qc], the
      canonical rationals, so that equality is Leibniz equality).  Rounding,
      overflow, NaN and infinities are outside the model.
    - An n-dimensional array is a nested list.  A decoded frame is an
      [H x W x C] array of integer samples, the frame stack is
      [N x H x W x C], a gradient field and the mask are [H x W].
    - A raised Python exception is a value of [exn]; a call that can raise
      returns a [result].
    - What the program obtains from outside its own source (the global
      numpy random generator, [float()], the [.4f] formatter,
      scipy's [gaussian_filter], the ffprobe and ffmpeg executables) is
      taken as a parameter: the class [Libs] for library calls and the
      record [video] for what the tools answer about one input file.  The
      two executables are taken to be installed. *)

From stdpp Require Import gmap strings list numbers sorting pretty.
From Stdlib Require Import QArith Qcanon Ascii Lqa.
From Stdlib Require Qcabs.

Local Open Scope Qc_scope.

(** ** Exceptions and results *)

(** The exceptions the modelled code can raise, one constructor per raising
    site. *)
Inductive exn : Type :=
| ValueError_zero_size            (* np.min / np.max of an array with no element *)
| ValueError_too_few_images (n : nat)
                                  (* line 99: raise ValueError, len(buff) = n < 2 *)
| ValueError_inhomogeneous_shape  (* np.array(buff) on arrays of different shapes *)
| ValueError_gradient_too_small   (* np.gradient on an axis with fewer than 2 points *)
| ValueError_float (s : string)   (* float(s) on text that is not a number *)
| ZeroDivisionError               (* duration / max_frames with max_frames = 0 *)
| SystemExit_too_few_frames (n : nat).
                                  (* lines 190-192: sys.exit(1), frame_count = n < 2 *)

Inductive result (A : Type) : Type :=
| Ok (a : A)
| Raise (e : exn).
Arguments Ok {A} a.
Arguments Raise {A} e.

Global Instance exn_eq_dec : EqDecision exn.
Proof. solve_decision. Defined.

Global Instance result_eq_dec `{EqDecision A} : EqDecision (result A).
Proof. solve_decision. Defined.

Definition rbind {A B} (r : result A) (k : A → result B) : result B :=
  match r with
  | Ok a => k a
  | Raise e => Raise e
  end.

Notation "x ←! r ; k" := (rbind r (λ x, k))
  (at level 20, r at level 100, k at level 200, right associativity,
   format "x  ←!  r ;  '/' k").
Notation "' p ←! r ; k" := (rbind r (λ p, k))
  (at level 20, p pattern, r at level 100, k at level 200,
   right associativity, only parsing).

Fixpoint rmapM {A B} (f : A → result B) (l : list A) : result (list B) :=
  match l with
  | [] => Ok []
  | a :: l' => b ←! f a; bs ←! rmapM f l'; Ok (b :: bs)
  end.

(** The error taxonomy of the specification, and the raising sites that
    realise each class. *)
Inductive error_class : Type :=
| InputError
| DimensionMismatchError
| InsufficientSamplesError
| OtherError.

Definition classify (e : exn) : error_class :=
  match e with
  | ValueError_too_few_images _ => InsufficientSamplesError
  | SystemExit_too_few_frames _ => InsufficientSamplesError
  | ValueError_inhomogeneous_shape => DimensionMismatchError
  | ValueError_float _ => InputError
  | ZeroDivisionError => OtherError
  | ValueError_zero_size => OtherError
  | ValueError_gradient_too_small => OtherError
  end.

(** ** Arrays *)

Abbreviation row := (list Qc).
Abbreviation field := (list (list Qc)).          (* H x W, float *)
Abbreviation frame := (list (list (list Z))).    (* H x W x C, integer samples *)
Abbreviation mask := (list (list Z)).            (* H x W, uint8 *)

Definition Qc_min (x y : Qc) : Qc := if bool_decide (x ≤ y) then x else y.
Definition Qc_max (x y : Qc) : Qc := if bool_decide (x ≤ y) then y else x.

(** [np.min(x)], [np.max(x)]: reductions over all the elements; they raise
    on an array that has none. *)
Definition np_min (x : field) : result Qc :=
  match concat x with
  | [] => Raise ValueError_zero_size
  | v :: vs => Ok (foldl Qc_min v vs)
  end.

Definition np_max (x : field) : result Qc :=
  match concat x with
  | [] => Raise ValueError_zero_size
  | v :: vs => Ok (foldl Qc_max v vs)
  end.

Definition zeros_like (x : field) : field := map (map (λ _, 0)) x.

(** [normalize], lines 22-28. *)
Definition normalize (x : field) : result field :=
  _min ←! np_min x;
  _max ←! np_max x;
  if bool_decide (_max - _min = 0) then Ok (zeros_like x)
  else Ok (map (map (λ e, (e - _min) / (_max - _min))) x).


(** All the entries of an array are equal. *)
Definition all_equal (x : field) : Prop :=
  ∀ u v, u ∈ concat x → v ∈ concat x → u = v.

(** ** Library calls taken as parameters *)

Class Libs : Type := {
  (** the state of numpy's global random generator *)
  rng_state : Type;
  (** [np.random.seed(n)]: the generator state after seeding with [n] *)
  np_random_seed : Z → rng_state;
  (** [np.random.shuffle(l)] from a generator state: the shuffled list and
      the state left behind *)
  np_random_shuffle : rng_state → list string → list string * rng_state;
  (** [float(s)] on a string; [None] when it raises [ValueError] (the
      value is a rational: non-finite floats are not represented) *)
  py_float : string → option Qc;
  (** the format [f"{x:.4f}"] *)
  format_4f : Qc → string;
  (** [scipy.ndimage.gaussian_filter(input, sigma=...)] *)
  gaussian_filter : field → Qc → field;
}.

(** ** numpy operations on the frame stack *)

Definition Qc_of_nat (n : nat) : Qc := Qc_of_Z (Z.of_nat n).

Definition Qc_sum (l : list Qc) : Qc := foldl Qcplus 0 l.

(** Mean of the elements of a one-dimensional array. *)
Definition Qc_mean (l : list Qc) : Qc := Qc_sum l / Qc_of_nat (length l).

(** Elementwise difference, sum and halving of [W] and [H x W] arrays. *)
Definition sub1 : row → row → row := zip_with Qcminus.
Definition sub2 : field → field → field := zip_with sub1.
Definition half1 : row → row := map (λ e, e / 2).
Definition half2 : field → field := map half1.
Definition add2 : field → field → field := zip_with (zip_with Qcplus).

(** [np.gradient] along one axis with unit spacing and [edge_order=1], on the
    list [l] of the slices of the array along that axis: second-order central
    differences [(l[i+1] - l[i-1]) / 2] in the interior, one-sided
    differences [l[1] - l[0]] and [l[-1] - l[-2]] at the two ends.
    [gradient_tail l] is the output from index 1 on. *)
Fixpoint gradient_tail {A} (sub : A → A → A) (half : A → A) (l : list A)
  : list A :=
  match l with
  | a :: ((_ :: c :: _) as t) => half (sub c a) :: gradient_tail sub half t
  | [a; b] => [sub b a]
  | _ => []
  end.

Definition gradient {A} (sub : A → A → A) (half : A → A) (l : list A)
  : result (list A) :=
  match l with
  | a :: b :: _ => Ok (sub b a :: gradient_tail sub half l)
  | _ => Raise ValueError_gradient_too_small
  end.

(** The conversion of the integer stack to [float64] that [np.gradient]
    performs on an integer input. *)
Definition to_float (images : list frame) : list (list (list row)) :=
  map (map (map (map Qc_of_Z))) images.

(** [np.gradient(images, axis=1)]: along the rows of each frame. *)
Definition gradient_axis1 (images : list (list (list row)))
  : result (list (list (list row))) :=
  rmapM (gradient sub2 half2) images.

(** [np.gradient(images, axis=2)]: along the columns of each row. *)
Definition gradient_axis2 (images : list (list (list row)))
  : result (list (list (list row))) :=
  rmapM (rmapM (gradient sub1 half1)) images.

(** [a.mean(axis=3)] on an [N x H x W x C] array. *)
Definition mean_axis3 (a : list (list (list row))) : list field :=
  map (map (map Qc_mean)) a.

(** [np.mean(a, axis=0)] on an [N x H x W] array: the slices are added up
    from the first one on, and the sum is divided by their number. *)
Definition mean_axis0 (a : list field) : field :=
  match a with
  | [] => []
  | f :: fs => map (map (λ s, s / Qc_of_nat (length a))) (foldl add2 f fs)
  end.

Definition np_abs (x : field) : field := map (map Qcabs.Qcabs) x.

(** The shape of a decoded frame (a rectangular array). *)
Definition height (f : frame) : nat := length f.
Definition width (f : frame) : nat := length (hd [] f).
Definition channels (f : frame) : nat := length (hd [] (hd [] f)).

Definition shape (f : frame) : nat * nat * nat :=
  (height f, width f, channels f).

(** [np.array(buff)]: the frames stacked along a new first axis; frames of
    different shapes cannot be stacked, and numpy raises [ValueError]. *)
Definition np_array (buff : list frame) : result (list frame) :=
  match buff with
  | [] => Ok []
  | f :: fs =>
      if forallb (λ g, bool_decide (shape g = shape f)) fs then Ok buff
      else Raise ValueError_inhomogeneous_shape
  end.

(** ** The mask pipeline of [extract_watermark_mask] *)

(** Lines 104-107: the accumulated statistic [(mean_dx, mean_dy)]. *)
Definition mean_gradients (images : list frame) : result (field * field) :=
  gx ←! gradient_axis1 (to_float images);
  let dx := mean_axis3 gx in
  gy ←! gradient_axis2 (to_float images);
  let dy := mean_axis3 gy in
  let mean_dx := np_abs (mean_axis0 dx) in
  let mean_dy := np_abs (mean_axis0 dy) in
  Ok (mean_dx, mean_dy).

Definition threshold : Qc := Qc_of_Z 10.

(** Line 111: [((mean_dx > threshold) | (mean_dy > threshold)).astype(float)]. *)
Definition salient_field (mean_dx mean_dy : field) : field :=
  zip_with (zip_with (λ a b,
    if bool_decide (threshold < a) || bool_decide (threshold < b)
    then 1 else 0)) mean_dx mean_dy.

(** Line 113: [((salient > 0.2) * 255).astype(np.uint8)]. *)
Definition binarize (salient : field) : mask :=
  map (map (λ v, if bool_decide (Q2Qc (2 # 10) < v) then 255%Z else 0%Z))
      salient.

(** Lines 110-113. *)
Definition mask_of_gradients `{Libs} (mean_dx mean_dy : field)
  : result mask :=
  let salient := salient_field mean_dx mean_dy in
  salient ←! normalize (gaussian_filter salient (Qc_of_Z 3));
  Ok (binarize salient).

(** Lines 98-113: from the list [buff] of the frames read to the mask that
    is saved. *)
Definition watermark_mask `{Libs} (buff : list frame) : result mask :=
  if bool_decide (length buff < 2)%nat
  then Raise (ValueError_too_few_images (length buff))
  else
    images ←! np_array buff;
    '(mean_dx, mean_dy) ←! mean_gradients images;
    mask_of_gradients mean_dx mean_dy.

(** ** Shapes and pointwise readings *)

(** An [h x w] array and an [h x w x c] array as nested lists. *)
Definition field_shape {X} (h w : nat) (x : list (list X)) : Prop :=
  length x = h ∧ Forall (λ r, length r = w) x.

Definition frame_shape {X} (h w c : nat) (f : list (list (list X))) : Prop :=
  length f = h ∧ Forall (field_shape w c) f.

(** What [imageio.imread] returns for a decoded frame: a rectangular array
    with at least one row, one column and one channel. *)
Definition decoded_image (f : frame) : Prop :=
  (0 < height f)%nat ∧ (0 < width f)%nat ∧ (0 < channels f)%nat ∧
  frame_shape (height f) (width f) (channels f) f.

(** Indexing, with 0 outside the array. *)
Definition at1 (p : row) (c : nat) : Qc := nth c p 0.

Definition at2 (x : field) (i j : nat) : Qc := at1 (nth i x []) j.

Definition at3 (a : list field) (i j c : nat) : Qc := at2 (nth i a []) j c.

(** The sample of frame [f] at row [i], column [j], channel [c], as a
    float. *)
Definition sample (f : frame) (i j c : nat) : Qc :=
  Qc_of_Z (nth c (nth j (nth i f []) []) 0%Z).

(** The discrete derivative at index [i] of a signal [g] sampled at
    [0 .. n-1]: central in the interior, one-sided at the two ends. *)
Definition derivative (n : nat) (g : nat → Qc) (i : nat) : Qc :=
  if decide (i = 0)%nat then g 1%nat - g 0%nat
  else if decide (i = n - 1)%nat then g (n - 1)%nat - g (n - 2)%nat
  else (g (i + 1)%nat - g (i - 1)%nat) / 2.

(** The signed derivatives of one frame at pixel [(i, j)], along the row
    index and along the column index, each averaged across the [c] colour
    channels.  The source names them [dx] (axis 1 of the stack) and [dy]
    (axis 2). *)
Definition frame_dx (h c : nat) (f : frame) (i j : nat) : Qc :=
  Qc_mean (map (λ ch, derivative h (λ r, sample f r j ch) i) (seq 0 c)).

Definition frame_dy (w c : nat) (f : frame) (i j : nat) : Qc :=
  Qc_mean (map (λ ch, derivative w (λ s, sample f i s ch) j) (seq 0 c)).

Definition mask_at (m : mask) (i j : nat) : Z := nth j (nth i m []) 0%Z.

(** What the pipeline relies on from [gaussian_filter]: the output has the
    shape of the input. *)
Definition shape_preserving (filter : field → Qc → field) : Prop :=
  ∀ x sigma h w, field_shape h w x → field_shape h w (filter x sigma).

(** ** Python string operations *)

(** [s.split(sep)] for a one-character separator. *)
Fixpoint split_char (sep : ascii) (s : string) : list string :=
  match s with
  | EmptyString => [EmptyString]
  | String c s' =>
      if Ascii.eqb c sep then EmptyString :: split_char sep s'
      else match split_char sep s' with
           | [] => [String c EmptyString]
           | part :: parts => String c part :: parts
           end
  end.

(** [sub in s]. *)
Fixpoint contains (sub s : string) : bool :=
  String.prefix sub s ||
  match s with
  | EmptyString => false
  | String _ s' => contains sub s'
  end.

(** [s.endswith(suffix)]. *)
Fixpoint ends_with (suffix s : string) : bool :=
  String.eqb s suffix ||
  match s with
  | EmptyString => false
  | String _ s' => ends_with suffix s'
  end.

(** The ASCII characters that [str.strip()] removes. *)
Definition is_py_space (c : ascii) : bool :=
  let n := nat_of_ascii c in
  ((9 <=? n) && (n <=? 13) || (28 <=? n) && (n <=? 32))%nat.

Fixpoint lstrip (s : string) : string :=
  match s with
  | EmptyString => EmptyString
  | String c s' => if is_py_space c then lstrip s' else s
  end.

(** [s.strip()]. *)
Definition strip (s : string) : string :=
  String.rev (lstrip (String.rev (lstrip s))).

(** [sorted(set(l))] on strings: the distinct elements in increasing
    order. *)
Definition sorted_set (l : list string) : list string :=
  merge_sort String.le (remove_dups l).

(** The slice [l[:m]]; a negative [m] counts from the end. *)
Definition slice_to {A} (m : Z) (l : list A) : list A :=
  if bool_decide (0 ≤ m)%Z then take (Z.to_nat m) l
  else take (length l - Z.to_nat (- m)) l.

(** ** The input video, as the external tools report it *)

Record video : Type := {
  (** stdout of [ffprobe ... -skip_frame nokey -show_frames ...], run with
      [check=True]; [None] when ffprobe exits with an error
      ([CalledProcessError]) *)
  ffprobe_keyframes : option string;
  (** stdout of [ffprobe ... -show_entries format=duration -of csv=p=0] *)
  ffprobe_duration : string;
  (** the image that [ffmpeg -ss t -i video -vframes 1 out.png] writes, if
      it writes one *)
  ffmpeg_frame : Qc → option frame;
}.

(** ** [extract_keyframes], lines 31-68 *)

Definition newline : ascii := ascii_of_nat 10.

(** Lines 43-47: the values of the [pkt_dts_time=...] lines. *)
Definition parse_keyframes (stdout : string) : list string :=
  map (λ line, strip (nth 1 (split_char "=" line) EmptyString))
      (filter (λ line, String.prefix "pkt_dts_time=" line
                       && negb (contains "N/A" line))
              (split_char newline stdout)).

(** Lines 42-51: the sorted keyframe list when the [try] block gets past
    line 51, [None] when control passes to the [except] clause. *)
Definition probed_keyframes (v : video) : option (list string) :=
  match ffprobe_keyframes v with
  | None => None
  | Some stdout =>
      let keyframes_time := sorted_set (parse_keyframes stdout) in
      match keyframes_time with
      | [] => None
      | _ => Some keyframes_time
      end
  end.

(** Line 64: the text handed to [float()]. *)
Definition duration_text (v : video) : string :=
  nth 0 (split_char "," (strip (ffprobe_duration v))) EmptyString.

(** Lines 65-66: the uniform grid. *)
Definition uniform_grid `{Libs} (duration : Qc) (max_frames : Z)
  : list string :=
  let interval := duration / Qc_of_Z max_frames in
  map (λ i, format_4f (Qc_of_Z i * interval)) (seqZ 1 max_frames).

(** The function takes the state of the global random generator and
    returns the state it leaves. *)
Definition extract_keyframes `{Libs} (v : video) (max_frames : Z)
    (g : rng_state) : result (list string) * rng_state :=
  match probed_keyframes v with
  | Some keyframes_time =>
      let g := np_random_seed 42 in
      let '(keyframes_time, g) := np_random_shuffle g keyframes_time in
      (Ok (slice_to max_frames keyframes_time), g)
  | None =>
      (match py_float (duration_text v) with
       | None => Raise (ValueError_float (duration_text v))
       | Some duration =>
           if bool_decide (max_frames = 0)%Z then Raise ZeroDivisionError
           else Ok (uniform_grid duration max_frames)
       end, g)
  end.

(** ** [extract_frames], lines 71-89 *)

(** The temporary directory: file name to decoded content. *)
Abbreviation directory := (gmap string frame).

Definition output_name (counter : nat) : string :=
  "output_" +:+ pretty counter +:+ ".png".

(** One iteration of the loop, on the pair of the counter and the
    directory. *)
Definition extract_frame `{Libs} (v : video) (st : nat * directory)
    (ts : string) : nat * directory :=
  let '(counter, tmpdir) := st in
  match py_float ts with
  | None => (counter, tmpdir)
  | Some t =>
      (S counter,
       match ffmpeg_frame v t with
       | Some png => <[output_name counter := png]> tmpdir
       | None => tmpdir
       end)
  end.

Definition extract_frames `{Libs} (v : video) (keyframes_time : list string)
    (tmpdir : directory) : nat * directory :=
  foldl (extract_frame v) (0%nat, tmpdir) keyframes_time.

(** Loop invariant: every file of the directory is one of the outputs
    numbered below [c]. *)
Definition names_below (c : nat) (d : directory) : Prop :=
  ∀ name, is_Some (d !! name) → ∃ k, (k < c)%nat ∧ name = output_name k.

(** ** [extract_watermark_mask], lines 92-117 *)

(** The pattern [output_*.png]. *)
Definition glob_output_png (name : string) : bool :=
  String.prefix "output_" name &&
  ends_with ".png" (String.substring 7 (String.length name - 7) name).

(** Lines 94-96: the files matching the pattern, in the order of their
    names, read back. *)
Definition read_frames (tmpdir : directory) : list frame :=
  map snd
    (merge_sort (λ a b, String.le a.1 b.1)
       (filter (λ kv, glob_output_png kv.1) (map_to_list tmpdir))).

(** The function returns the mask it saves as [mask.png]. *)
Definition extract_watermark_mask `{Libs} (tmpdir : directory) : result mask :=
  watermark_mask (read_frames tmpdir).

(** ** [main], lines 167-197: from the input video to the mask *)

Definition main `{Libs} (v : video) (max_frames : Z) (g : rng_state)
  : result mask * rng_state :=
  let tmpdir : directory := ∅ in
  let '(keyframes_time, g) := extract_keyframes v max_frames g in
  (keyframes_time ←! keyframes_time;
   let '(frame_count, tmpdir) := extract_frames v keyframes_time tmpdir in
   if bool_decide (frame_count < 2)%nat
   then Raise (SystemExit_too_few_frames frame_count)
   else extract_watermark_mask tmpdir,
   g).

(** A requested sample decodes successfully when its text is a number and
    ffmpeg writes an image for it. *)
Definition decodes `{Libs} (v : video) (ts : string) : bool :=
  match py_float ts with
  | Some t => bool_decide (is_Some (ffmpeg_frame v t))
  | None => false
  end.

Definition parses `{Libs} (ts : string) : bool :=
  bool_decide (is_Some (py_float ts)).

(** ** Notions used to state further properties *)

(** Every entry of an array is [v]. *)
Definition uniform {X} (v : X) (x : list (list X)) : Prop :=
  Forall (Forall (eq v)) x.

(** A smoothing filter with a normalised kernel sends a constant array to
    the same constant array. *)
Definition uniform_preserving (filter : field → Qc → field) : Prop :=
  ∀ x sigma v, uniform v x → uniform v (filter x sigma).

(** A frame with the offset [k] added to every sample. *)
Definition brighten (k : Z) (f : frame) : frame :=
  map (map (map (Z.add k))) f.

(** The samples of an 8-bit frame. *)
Definition eight_bit (f : frame) : Prop :=
  Forall (Forall (Forall (λ s, 0 ≤ s ≤ 255)%Z)) f.

(** The images that ffmpeg writes for a list of requested timestamps, in
    the order of the requests. *)
Definition decoded_frames `{Libs} (v : video) (keyframes_time : list string)
  : list frame :=
  omap (λ ts, t ← py_float ts; ffmpeg_frame v t) keyframes_time.

(** The text that ffprobe prints for a list of keyframes: for each of them
    the three lines [[FRAME]], [pkt_dts_time=...] and [[/FRAME]]. *)
Definition keyframe_lines (ts : list string) : string :=
  foldr (λ t out,
           "[FRAME]" +:+ String newline
             ("pkt_dts_time=" +:+ t +:+ String newline
                ("[/FRAME]" +:+ String newline out)))
        EmptyString ts.

(** A timestamp as ffprobe prints it: no separator of the output format
    inside, no white space around, and not the placeholder [N/A]. *)
Definition plain_timestamp (t : string) : Prop :=
  split_char newline t = [t] ∧ split_char "=" t = [t] ∧ strip t = t ∧
  contains "N/A" t = false.

(** What the callers rely on from [np.random.shuffle]: the result is a
    rearrangement of the list. *)
Definition shuffle_permutes `{Libs} : Prop :=
  ∀ g l, (np_random_shuffle g l).1 ≡ₚ l.

(** ** Reference instances of the parameters

    Concrete, computable stand-ins used to run the model on sample inputs:
    [float()] restricted to plain decimal numerals (what ffprobe prints),
    the [.4f] formatter on exact rationals, a linear congruential generator
    with a Fisher-Yates shuffle in place of numpy's Mersenne Twister, and a
    three-tap binomial smoothing in place of the Gaussian kernel. *)

Definition digit_value (c : ascii) : option Z :=
  let n := Z.of_nat (nat_of_ascii c) in
  if bool_decide (48 ≤ n ≤ 57)%Z then Some (n - 48)%Z else None.

(** The value of a string of decimal digits read after the digits [acc]. *)
Fixpoint digits_value (acc : Z) (s : string) : option Z :=
  match s with
  | EmptyString => Some acc
  | String c s' =>
      match digit_value c with
      | Some d => digits_value (10 * acc + d) s'
      | None => None
      end
  end.

Definition is_empty (s : string) : bool :=
  match s with EmptyString => true | _ => false end.

(** [float(s)] for [s] an optional sign, digits, and optionally a point and
    more digits, with at least one digit in all, surrounded by optional
    white space. *)
Definition decimal_float (s : string) : option Qc :=
  let s := strip s in
  let '(negative, body) :=
    match s with
    | String "-" s' => (true, s')
    | String "+" s' => (false, s')
    | _ => (false, s)
    end in
  let signed (q : Qc) := if negative : bool then - q else q in
  match split_char "." body with
  | [int_part] =>
      if is_empty int_part then None
      else n ← digits_value 0 int_part; Some (signed (Qc_of_Z n))
  | [int_part; frac_part] =>
      if is_empty int_part && is_empty frac_part then None
      else
        n ← digits_value 0 (int_part +:+ frac_part);
        Some (signed (Qc_of_Z n
                      / Qc_of_Z (10 ^ Z.of_nat (String.length frac_part))))
  | _ => None
  end.

(** Rounding of a non-negative rational to the nearest integer, ties to
    even. *)
Definition round_half_even (q : Q) : Z :=
  let n := Qnum q in
  let d := Zpos (Qden q) in
  let fl := (n `div` d)%Z in
  match (2 * (n `mod` d) ?= d)%Z with
  | Lt => fl
  | Gt => (fl + 1)%Z
  | Eq => if Z.even fl then fl else (fl + 1)%Z
  end.

Fixpoint zero_digits (k : nat) : string :=
  match k with
  | O => EmptyString
  | S k' => String "0" (zero_digits k')
  end.

Definition decimal_4f (q : Qc) : string :=
  let n := round_half_even (this (Qcabs.Qcabs q * Qc_of_Z 10000)) in
  let frac := pretty (n `mod` 10000)%Z in
  (if bool_decide (q < 0) then "-" else "")
  +:+ pretty (n `div` 10000)%Z +:+ "."
  +:+ zero_digits (4 - String.length frac) +:+ frac.

Definition lcg_next (g : Z) : Z :=
  ((1103515245 * g + 12345) `mod` 2147483648)%Z.

Definition swap (i j : nat) (l : list string) : list string :=
  match l !! i, l !! j with
  | Some a, Some b => <[i := b]> (<[j := a]> l)
  | _, _ => l
  end.

Fixpoint lcg_shuffle_from (i : nat) (g : Z) (l : list string)
  : list string * Z :=
  match i with
  | O => (l, g)
  | S i' =>
      let g' := lcg_next g in
      lcg_shuffle_from i' g' (swap i (Z.to_nat (g' `mod` Z.of_nat (S i))) l)
  end.

Definition lcg_shuffle (g : Z) (l : list string) : list string * Z :=
  lcg_shuffle_from (length l - 1) g l.

(** Smoothing of the slices of an array along one axis with the kernel
    [1 2 1] / 4, the border slice repeated. *)
Definition smooth3 {A} (comb : A → A → A → A) (d : A) (l : list A) : list A :=
  map (λ i, comb (nth (i - 1) l d) (nth i l d)
                 (nth (Nat.min (i + 1) (length l - 1)) l d))
      (seq 0 (length l)).

Definition kernel3 (a b c : Qc) : Qc := (a + 2 * b + c) / Qc_of_Z 4.

Definition kernel3_rows (a b c : row) : row :=
  zip_with (λ ab c', kernel3 ab.1 ab.2 c') (zip a b) c.

Definition binomial_filter (x : field) (sigma : Qc) : field :=
  smooth3 kernel3_rows [] (map (smooth3 kernel3 0) x).

Definition reference_libs : Libs := {|
  rng_state := Z;
  np_random_seed := λ n, (n `mod` 4294967296)%Z;
  np_random_shuffle := lcg_shuffle;
  py_float := decimal_float;
  format_4f := decimal_4f;
  gaussian_filter := binomial_filter;
|}.

(** ** Sample inputs *)

(** Two 2 x 2 one-channel frames whose row derivatives are opposite. *)
Definition frame_up : frame := [[[0]; [0]]; [[20]; [20]]]%Z.
Definition frame_down : frame := [[[20]; [20]]; [[0]; [0]]]%Z.

(** A 4 x 4 three-channel frame with a bright 2 x 2 block in one corner,
    and a uniform frame of the same size. *)
Definition frame_logo (bg : Z) : frame :=
  [[[200; 200; 200]; [200; 200; 200]; [bg; bg; bg]; [bg; bg; bg]];
   [[200; 200; 200]; [200; 200; 200]; [bg; bg; bg]; [bg; bg; bg]];
   [[bg; bg; bg]; [bg; bg; bg]; [bg; bg; bg]; [bg; bg; bg]];
   [[bg; bg; bg]; [bg; bg; bg]; [bg; bg; bg]; [bg; bg; bg]]]%Z.

(** A 2 x 3 frame, of a different size. *)
Definition frame_small : frame :=
  [[[1; 1; 1]; [2; 2; 2]; [3; 3; 3]]; [[4; 4; 4]; [5; 5; 5]; [6; 6; 6]]]%Z.

(** A video without keyframe information whose frames at 1 s and 2 s show
    the logo on two backgrounds; nothing decodes past 2.5 s. *)
Definition sample_video (duration : string) : video := {|
  ffprobe_keyframes := None;
  ffprobe_duration := duration;
  ffmpeg_frame := λ t,
    if bool_decide (t ≤ Qc_of_Z 1) then Some (frame_logo 10)
    else if bool_decide (t ≤ Q2Qc (5 # 2)) then Some (frame_logo 30)
    else None;
|}.

(** A video with three keyframes, one of them listed twice. *)
Definition keyframe_video : video := {|
  ffprobe_keyframes := Some
    ("[FRAME]" +:+ String newline "pkt_dts_time=2.000000" +:+
     String newline "[/FRAME]" +:+
     String newline "pkt_dts_time=0.000000" +:+
     String newline "pkt_dts_time=N/A" +:+
     String newline "pkt_dts_time=1.000000" +:+
     String newline "pkt_dts_time=2.000000" +:+ String newline "");
  ffprobe_duration := "3.000000";
  ffmpeg_frame := λ t,
    if bool_decide (t ≤ Qc_of_Z 1) then Some (frame_logo 10)
    else Some (frame_logo 30);
|}.

(** Gradient statistics of a 2 x 2 image with one strong entry. *)
Definition sample_mean_dx : field := [[0; Qc_of_Z 20]; [0; 0]].
Definition sample_mean_dy : field := [[0; 0]; [0; 0]].

(** A directory holding two frames of different sizes. *)
Definition mixed_directory : directory :=
  <["output_0.png" := frame_logo 10]> (<["output_1.png" := frame_small]> ∅).

(** A directory holding the logo on two backgrounds. *)
Definition logo_directory : directory :=
  <["output_0.png" := frame_logo 10]> (<["output_1.png" := frame_logo 30]> ∅).

Definition logo_mask : mask :=
  [[255; 255; 255; 255]; [255; 255; 255; 255];
   [255; 255; 255; 0]; [255; 255; 0; 0]]%Z.

(** ** More sample inputs *)

Definition sample_field : field :=
  [[Qc_of_Z 1; Qc_of_Z 3]; [Qc_of_Z 2; Qc_of_Z 5]].

(** The probe output of [keyframe_video]. *)
Definition keyframe_video_stdout : string :=
  default EmptyString (ffprobe_keyframes keyframe_video).

(** Three keyframes as ffprobe lists them, the second without a
    timestamp. *)
Definition sample_keyframes : list string :=
  ["0.000000"; "N/A"; "2.500000"].

(** * Properties *)

(** ** [normalize] *)

Lemma Qc_min_le_l x y : Qc_min x y ≤ x.
Proof.
  unfold Qc_min. case_bool_decide as H; [apply Qcle_refl|].
  apply Qclt_le_weak, Qclt_nge, H.
Qed.

Lemma Qc_min_le_r x y : Qc_min x y ≤ y.
Proof. unfold Qc_min. case_bool_decide; [done|apply Qcle_refl]. Qed.

Lemma Qc_max_le_l x y : x ≤ Qc_max x y.
Proof. unfold Qc_max. case_bool_decide; [done|apply Qcle_refl]. Qed.

Lemma Qc_max_le_r x y : y ≤ Qc_max x y.
Proof.
  unfold Qc_max. case_bool_decide as H; [apply Qcle_refl|].
  apply Qclt_le_weak, Qclt_nge, H.
Qed.

Lemma foldl_min_le_init l v : foldl Qc_min v l ≤ v.
Proof.
  revert v. induction l as [|e l IH]; intros v; simpl; [apply Qcle_refl|].
  etrans; [apply IH|apply Qc_min_le_l].
Qed.

Lemma foldl_min_le l v e : e ∈ l → foldl Qc_min v l ≤ e.
Proof.
  revert v. induction l as [|e' l IH]; intros v; [by intros ?%elem_of_nil|].
  intros [->|Hin]%elem_of_cons; simpl; [|by apply IH].
  etrans; [apply foldl_min_le_init|apply Qc_min_le_r].
Qed.

Lemma foldl_max_ge_init l v : v ≤ foldl Qc_max v l.
Proof.
  revert v. induction l as [|e l IH]; intros v; simpl; [apply Qcle_refl|].
  etrans; [apply Qc_max_le_l|apply IH].
Qed.

Lemma foldl_max_ge l v e : e ∈ l → e ≤ foldl Qc_max v l.
Proof.
  revert v. induction l as [|e' l IH]; intros v; [by intros ?%elem_of_nil|].
  intros [->|Hin]%elem_of_cons; simpl; [|by apply IH].
  etrans; [apply Qc_max_le_r|apply foldl_max_ge_init].
Qed.

Lemma foldl_min_elem l v : foldl Qc_min v l ∈ v :: l.
Proof.
  revert v. induction l as [|e l IH]; intros v; simpl; [set_solver|].
  destruct (proj1 (elem_of_cons _ _ _) (IH (Qc_min v e))) as [->|?];
    [|by do 2 right].
  unfold Qc_min. case_bool_decide; [left|right; left].
Qed.

Lemma foldl_max_elem l v : foldl Qc_max v l ∈ v :: l.
Proof.
  revert v. induction l as [|e l IH]; intros v; simpl; [set_solver|].
  destruct (proj1 (elem_of_cons _ _ _) (IH (Qc_max v e))) as [->|?];
    [|by do 2 right].
  unfold Qc_max. case_bool_decide; [right; left|left].
Qed.






Lemma concat_map_map {A B} (f : A → B) (x : list (list A)) :
  concat (map (map f) x) = map f (concat x).
Proof.
  induction x as [|r x IH]; simpl; [done|]. by rewrite map_app, IH.
Qed.



(** The minimum and the maximum bound every entry, and are entries. *)
Lemma np_min_spec x m :
  np_min x = Ok m → m ∈ concat x ∧ ∀ e, e ∈ concat x → m ≤ e.
Proof.
  unfold np_min. destruct (concat x) as [|v vs]; [done|]. intros [= <-].
  split; [apply foldl_min_elem|].
  intros e [->|?]%elem_of_cons;
    [apply foldl_min_le_init|by apply foldl_min_le].
Qed.

Lemma np_max_spec x m :
  np_max x = Ok m → m ∈ concat x ∧ ∀ e, e ∈ concat x → e ≤ m.
Proof.
  unfold np_max. destruct (concat x) as [|v vs]; [done|]. intros [= <-].
  split; [apply foldl_max_elem|].
  intros e [->|?]%elem_of_cons;
    [apply foldl_max_ge_init|by apply foldl_max_ge].
Qed.

Lemma np_min_max_defined x :
  concat x ≠ [] → ∃ m M, np_min x = Ok m ∧ np_max x = Ok M.
Proof.
  unfold np_min, np_max. destruct (concat x); [done|]. eauto.
Qed.

Lemma Qcminus_eq_0 (x y : Qc) : x - y = 0 ↔ x = y.
Proof.
  split; [|intros ->; ring]. intros H.
  rewrite <-(Qcplus_0_l y), <-H. ring.
Qed.

Lemma all_equal_min_max x m M :
  np_min x = Ok m → np_max x = Ok M → all_equal x ↔ M - m = 0.
Proof.
  intros [Hm Hmle]%np_min_spec [HM HMle]%np_max_spec.
  rewrite Qcminus_eq_0. split.
  - intros Heq. by apply Heq.
  - intros -> u v Hu Hv.
    assert (∀ e, e ∈ concat x → e = m) as Hall.
    { intros e He. apply (anti_symm (≤)); auto. }
    by rewrite (Hall u), (Hall v).
Qed.




(** ** [np.gradient] along one axis *)

Section gradient_spec.
Context {A : Type} (sub : A → A → A) (half : A → A).
Context (P : A → Prop) (ev : A → Qc).
Hypothesis P_sub : ∀ x y, P x → P y → P (sub x y).
Hypothesis P_half : ∀ x, P x → P (half x).
Hypothesis ev_sub : ∀ x y, P x → P y → ev (sub x y) = ev x - ev y.
Hypothesis ev_half : ∀ x, P x → ev (half x) = ev x / 2.

Lemma gradient_tail_length (l : list A) :
  length (gradient_tail sub half l) = (length l - 1)%nat.
Proof.
  induction l as [|a [|b [|c l]] IH]; simpl in *; try done.
  rewrite IH. lia.
Qed.

Lemma gradient_tail_Forall (l : list A) :
  Forall P l → Forall P (gradient_tail sub half l).
Proof.
  induction l as [|a [|b [|c l]] IH]; simpl; intros Hl; try done.
  - decompose_Forall. auto.
  - inv Hl. constructor; [|by apply IH].
    decompose_Forall. auto.
Qed.

(** Output index [k + 1] of the gradient, read off the input. *)
Lemma gradient_tail_lookup (l : list A) (d : A) (k : nat) :
  Forall P l → (k + 1 < length l)%nat →
  ev (nth k (gradient_tail sub half l) d)
  = if decide (k + 1 = length l - 1)%nat
    then ev (nth (k + 1) l d) - ev (nth k l d)
    else (ev (nth (k + 2) l d) - ev (nth k l d)) / 2.
Proof.
  revert k. induction l as [|a [|b [|c l]] IH]; intros k Hl Hk;
    simpl in Hk; try lia.
  - assert (k = 0)%nat as -> by lia. simpl. decompose_Forall. auto.
  - inv Hl. destruct k as [|k].
    + simpl. decompose_Forall. rewrite ev_half, ev_sub by auto. done.
    + change (gradient_tail sub half (a :: b :: c :: l))
        with (half (sub c a) :: gradient_tail sub half (b :: c :: l)).
      cbn [nth]. rewrite IH by (simpl; auto with lia).
      replace (S k + 1)%nat with (S (k + 1)) by lia.
      replace (S k + 2)%nat with (S (k + 2)) by lia.
      cbn [nth length].
      repeat case_decide; try lia; done.
Qed.

Lemma gradient_unfold (l : list A) (d : A) :
  (2 ≤ length l)%nat →
  gradient sub half l
  = Ok (sub (nth 1 l d) (nth 0 l d) :: gradient_tail sub half l).
Proof. destruct l as [|a [|b l]]; simpl; try done; lia. Qed.

Lemma gradient_spec (l : list A) (d : A) :
  Forall P l → (2 ≤ length l)%nat →
  ∃ g, gradient sub half l = Ok g ∧ length g = length l ∧ Forall P g ∧
    ∀ i, (i < length l)%nat →
      ev (nth i g d) = derivative (length l) (λ r, ev (nth r l d)) i.
Proof.
  intros Hl Hlen. eexists. split; [by apply (gradient_unfold l d)|].
  assert (P (nth 0 l d) ∧ P (nth 1 l d)) as [H0 H1].
  { rewrite Forall_forall in Hl.
    split; apply Hl, list_elem_of_In, nth_In; lia. }
  split; [|split].
  - cbn [length]. rewrite gradient_tail_length. lia.
  - constructor; [auto|]. by apply gradient_tail_Forall.
  - intros i Hi. unfold derivative. destruct i as [|k].
    + rewrite decide_True by done. cbn [nth]. auto.
    + rewrite (decide_False (P:=(S k = 0)%nat)) by done. cbn [nth].
      rewrite gradient_tail_lookup by (done || lia).
      replace (S k - 1)%nat with k by lia.
      replace (S k + 1)%nat with (k + 2)%nat by lia.
      repeat case_decide; try lia; [|done].
      replace (length l - 1)%nat with (k + 1)%nat by lia.
      by replace (length l - 2)%nat with k by lia.
Qed.

Lemma gradient_too_small (l : list A) :
  (length l < 2)%nat → gradient sub half l = Raise ValueError_gradient_too_small.
Proof. destruct l as [|a [|b l]]; simpl; try done. lia. Qed.

End gradient_spec.

(** ** Indexing through the elementwise operations *)

Lemma nth_zip_with {X Y Z} (f : X → Y → Z) l k i dx dy dz :
  length l = length k →
  nth i (zip_with f l k) dz
  = if decide (i < length l)%nat then f (nth i l dx) (nth i k dy) else dz.
Proof.
  revert k i. induction l as [|x l IH]; intros [|y k] i Hlen;
    simplify_eq/=; [by destruct i|].
  destruct i as [|i]; [done|]. rewrite IH by done.
  repeat case_decide; try lia; done.
Qed.

Lemma nth_map_default {X Y} (f : X → Y) l i dx dy :
  f dx = dy → nth i (map f l) dy = f (nth i l dx).
Proof. intros <-. apply map_nth. Qed.

Lemma Qc_div_0_l (x : Qc) : 0 / x = 0.
Proof. unfold Qcdiv. ring. Qed.

Lemma at1_map g p c : g 0 = 0 → at1 (map g p) c = g (at1 p c).
Proof. intros Hg. unfold at1. by apply nth_map_default. Qed.

Lemma at2_map g x i j :
  g 0 = 0 → at2 (map (map g) x) i j = g (at2 x i j).
Proof.
  intros Hg. unfold at2.
  rewrite (nth_map_default (map g) x i [] []) by done. by apply at1_map.
Qed.

Lemma at1_zip_with g p q c :
  g 0 0 = 0 → length p = length q →
  at1 (zip_with g p q) c = g (at1 p c) (at1 q c).
Proof.
  intros Hg Hlen. unfold at1. rewrite (nth_zip_with g p q c 0 0 0) by done.
  case_decide; [done|]. by rewrite !nth_overflow by lia.
Qed.

Lemma at2_zip_with g x y h w i j :
  g 0 0 = 0 → field_shape h w x → field_shape h w y →
  at2 (zip_with (zip_with g) x y) i j = g (at2 x i j) (at2 y i j).
Proof.
  intros Hg [Hx Hxr] [Hy Hyr]. unfold at2.
  rewrite (nth_zip_with (zip_with g) x y i [] [] []) by congruence.
  case_decide as Hi.
  - apply at1_zip_with; [done|].
    rewrite Forall_forall in Hxr, Hyr.
    rewrite (Hxr (nth i x [])), (Hyr (nth i y [])); [done|..];
      apply list_elem_of_In, nth_In; lia.
  - rewrite !(nth_overflow _ []) by lia. unfold at1. by destruct j.
Qed.

Lemma field_shape_zip_with {X} (g : X → X → X) x y h w :
  field_shape h w x → field_shape h w y →
  field_shape h w (zip_with (zip_with g) x y).
Proof.
  intros [Hx Hxr] [Hy Hyr]. split.
  - rewrite length_zip_with. lia.
  - clear Hx Hy. revert y Hyr.
    induction Hxr as [|r x Hr Hxr IH]; intros [|s y] Hyr; simpl;
      try constructor.
    + inv Hyr. rewrite length_zip_with. lia.
    + inv Hyr. by apply IH.
Qed.

Lemma field_shape_map {X Y} (g : X → Y) x h w :
  field_shape h w x → field_shape h w (map (map g) x).
Proof.
  intros [Hx Hxr]. split; [by rewrite length_map|].
  apply Forall_map. eapply Forall_impl; [done|].
  intros r Hr. simpl. by rewrite length_map.
Qed.

Lemma frame_shape_map {X Y} (g : X → Y) (f : list (list (list X))) h w c :
  frame_shape h w c f → frame_shape h w c (map (map (map g)) f).
Proof.
  intros [Hf Hfr]. split; [by rewrite length_map|].
  apply Forall_map. eapply Forall_impl; [done|].
  intros x Hx. by apply field_shape_map.
Qed.

Lemma field_shape_nth {X} (x : list (list X)) h w i :
  field_shape h w x → (i < h)%nat → length (nth i x []) = w.
Proof.
  intros [Hx Hxr] Hi. rewrite Forall_forall in Hxr.
  apply Hxr, list_elem_of_In, nth_In. lia.
Qed.

Lemma frame_shape_nth {X} (f : list (list (list X))) h w c i :
  frame_shape h w c f → (i < h)%nat → field_shape w c (nth i f []).
Proof.
  intros [Hf Hfr] Hi. rewrite Forall_forall in Hfr.
  apply Hfr, list_elem_of_In, nth_In. lia.
Qed.

(** [sub2], [half2], [sub1], [half1] keep shapes and act entrywise. *)
Lemma at2_sub2 w c x y j ch :
  field_shape w c x → field_shape w c y →
  at2 (sub2 x y) j ch = at2 x j ch - at2 y j ch.
Proof. intros. by apply (at2_zip_with Qcminus x y w c). Qed.

Lemma at2_half2 x j ch : at2 (half2 x) j ch = at2 x j ch / 2.
Proof. apply (at2_map (λ e, e / 2)), Qc_div_0_l. Qed.

Lemma at1_sub1 p q ch :
  length p = length q → at1 (sub1 p q) ch = at1 p ch - at1 q ch.
Proof. intros. by apply (at1_zip_with Qcminus). Qed.

Lemma at1_half1 p ch : at1 (half1 p) ch = at1 p ch / 2.
Proof. apply (at1_map (λ e, e / 2)), Qc_div_0_l. Qed.

(** A list is the table of its entries. *)
Lemma list_eq_map_nth {X} (l : list X) (d : X) :
  l = map (λ i, nth i l d) (seq 0 (length l)).
Proof.
  apply (nth_ext _ _ d d); [by rewrite length_map, length_seq|].
  intros i Hi.
  rewrite (nth_indep (map _ _) d (nth 0 l d))
    by (by rewrite length_map, length_seq).
  rewrite (map_nth (λ i, nth i l d)). by rewrite seq_nth.
Qed.

(** ** [rmapM] *)

Lemma rmapM_Forall2 {X Y} (f : X → result Y) (Q : X → Y → Prop) l :
  Forall (λ a, ∃ b, f a = Ok b ∧ Q a b) l →
  ∃ l', rmapM f l = Ok l' ∧ Forall2 Q l l'.
Proof.
  induction 1 as [|a l (b & Hb & HQ) _ (l' & Hl' & HQs)]; simpl.
  - by exists [].
  - exists (b :: l'). rewrite Hb, Hl'. simpl. by auto.
Qed.

Lemma rmapM_raise {X Y} (f : X → result Y) e a l :
  f a = Raise e → rmapM f (a :: l) = Raise e.
Proof. intros Ha. simpl. by rewrite Ha. Qed.

(** ** The per-frame gradients *)

Lemma sample_to_float (f : frame) i j ch :
  sample f i j ch = at3 (map (map (map Qc_of_Z)) f) i j ch.
Proof.
  unfold sample, at3, at2, at1.
  rewrite (nth_map_default (map (map Qc_of_Z)) f i [] []) by done.
  rewrite (nth_map_default (map Qc_of_Z) _ j [] []) by done.
  by rewrite (nth_map_default Qc_of_Z _ ch 0%Z 0) by apply Z2Qc_inj_0.
Qed.

Lemma Qc_mean_nil : Qc_mean [] = 0.
Proof. unfold Qc_mean. apply Qc_div_0_l. Qed.

(** The channel mean of an [h x w x c] array, entry by entry. *)
Lemma at2_mean_channels (G : list field) h w c i j :
  frame_shape h w c G → (i < h)%nat → (j < w)%nat →
  at2 (map (map Qc_mean) G) i j
  = Qc_mean (map (λ ch, at3 G i j ch) (seq 0 c)).
Proof.
  intros HG Hi Hj. unfold at2 at 1, at1.
  rewrite (nth_map_default (map Qc_mean) G i [] []) by done.
  rewrite (nth_map_default Qc_mean _ j [] 0) by apply Qc_mean_nil.
  f_equal. unfold at3, at2, at1.
  pose proof (frame_shape_nth G h w c i HG Hi) as Hrow.
  pose proof (field_shape_nth _ w c j Hrow Hj) as Hpx.
  rewrite <-Hpx. apply list_eq_map_nth.
Qed.

Lemma field_shape_mean_channels (G : list field) h w c :
  frame_shape h w c G → field_shape h w (map (map Qc_mean) G).
Proof.
  intros [HG HGr]. split; [by rewrite length_map|].
  apply Forall_map. eapply Forall_impl; [done|].
  intros x [Hx _]. simpl. by rewrite length_map.
Qed.

(** [np.gradient] along the rows of one frame. *)
Lemma gradient_rows_spec (F : list field) h w c :
  frame_shape h w c F → (2 ≤ h)%nat →
  ∃ G, gradient sub2 half2 F = Ok G ∧ frame_shape h w c G ∧
    ∀ i j ch, (i < h)%nat →
      at3 G i j ch = derivative h (λ r, at3 F r j ch) i.
Proof.
  intros [HF HFr] Hh.
  assert (∀ x y, field_shape w c x → field_shape w c y →
            field_shape w c (sub2 x y)) as Hsub
    by (intros; by apply field_shape_zip_with).
  assert (∀ x, field_shape w c x → field_shape w c (half2 x)) as Hhalf
    by (intros; by apply field_shape_map).
  destruct (gradient_spec sub2 half2 (field_shape w c) (λ x, at2 x 0 0)
              Hsub Hhalf (λ x y, at2_sub2 w c x y 0 0)%nat
              (λ x _, at2_half2 x 0 0)%nat F [] HFr)
    as (G & HG & Hlen & HGr & _); [lia|].
  exists G. split; [done|]. split; [split; [lia|done]|].
  intros i j ch Hi.
  destruct (gradient_spec sub2 half2 (field_shape w c) (λ x, at2 x j ch)
              Hsub Hhalf (λ x y, at2_sub2 w c x y j ch)
              (λ x _, at2_half2 x j ch) F [] HFr)
    as (G' & HG' & _ & _ & Hat); [lia|].
  rewrite HG in HG'. injection HG' as <-.
  rewrite <-HF. apply Hat. lia.
Qed.

(** [np.gradient] along the columns of one frame. *)
Lemma gradient_cols_spec (F : list field) h w c :
  frame_shape h w c F → (2 ≤ w)%nat →
  ∃ G, rmapM (gradient sub1 half1) F = Ok G ∧ frame_shape h w c G ∧
    ∀ i j ch, (i < h)%nat → (j < w)%nat →
      at3 G i j ch = derivative w (λ s, at3 F i s ch) j.
Proof.
  intros [HF HFr] Hw.
  pose (Q := λ R GR : field, field_shape w c GR ∧
      ∀ j ch, (j < w)%nat →
        at2 GR j ch = derivative w (λ s, at2 R s ch) j).
  destruct (rmapM_Forall2 (gradient sub1 half1) Q F) as (G & HG & HQ).
  { eapply Forall_impl; [done|]. intros R [HR HRr].
    assert (∀ p q : row, length p = c → length q = c →
              length (sub1 p q) = c) as Hsub.
    { intros p q Hp Hq. unfold sub1. rewrite length_zip_with. lia. }
    assert (∀ p : row, length p = c → length (half1 p) = c) as Hhalf.
    { intros p Hp. unfold half1. by rewrite length_map. }
    assert (∀ ch (p q : row), length p = c → length q = c →
              at1 (sub1 p q) ch = at1 p ch - at1 q ch) as Hev.
    { intros ch p q Hp Hq. apply at1_sub1. congruence. }
    destruct (gradient_spec sub1 half1 (λ p, length p = c) (λ p, at1 p 0)
                Hsub Hhalf (Hev 0%nat) (λ p _, at1_half1 p 0) R [] HRr)
      as (GR & HGR & Hlen & HGRr & _); [lia|].
    exists GR. split; [done|]. split; [split; [lia|done]|].
    intros j ch Hj.
    destruct (gradient_spec sub1 half1 (λ p, length p = c) (λ p, at1 p ch)
                Hsub Hhalf (Hev ch) (λ p _, at1_half1 p ch) R [] HRr)
      as (GR' & HGR' & _ & _ & Hat); [lia|].
    rewrite HGR in HGR'. injection HGR' as <-.
    rewrite <-HR. apply Hat. lia. }
  exists G. split; [done|].
  pose proof (Forall2_length _ _ _ HQ) as Hlen.
  split.
  - split; [lia|]. rewrite Forall_forall. intros GR HGR.
    apply list_elem_of_lookup in HGR as [i Hi].
    destruct (Forall2_lookup_r _ _ _ _ _ HQ Hi) as (R & _ & [? _]). done.
  - intros i j ch Hi Hj. unfold at3.
    assert (is_Some (F !! i)) as [R HR] by (apply lookup_lt_is_Some; lia).
    destruct (Forall2_lookup_l _ _ _ _ _ HQ HR) as (GR & HGR & _ & Hat).
    rewrite !nth_lookup, HR, HGR. simpl. by rewrite (Hat j ch Hj).
Qed.

(** ** Accumulation over the frames *)

Lemma frame_dx_spec (f : frame) h w c :
  frame_shape h w c f → (2 ≤ h)%nat →
  ∃ G, gradient sub2 half2 (map (map (map Qc_of_Z)) f) = Ok G ∧
    field_shape h w (map (map Qc_mean) G) ∧
    ∀ i j, (i < h)%nat → (j < w)%nat →
      at2 (map (map Qc_mean) G) i j = frame_dx h c f i j.
Proof.
  intros Hf Hh.
  destruct (gradient_rows_spec _ h w c (frame_shape_map Qc_of_Z f h w c Hf) Hh)
    as (G & HG & HGs & Hat).
  exists G. split; [done|]. split; [by eapply field_shape_mean_channels|].
  intros i j Hi Hj. rewrite (at2_mean_channels G h w c) by done.
  unfold frame_dx. f_equal. apply map_ext. intros ch.
  rewrite Hat by done. unfold derivative.
  by rewrite !sample_to_float.
Qed.

Lemma frame_dy_spec (f : frame) h w c :
  frame_shape h w c f → (2 ≤ w)%nat →
  ∃ G, rmapM (gradient sub1 half1) (map (map (map Qc_of_Z)) f) = Ok G ∧
    field_shape h w (map (map Qc_mean) G) ∧
    ∀ i j, (i < h)%nat → (j < w)%nat →
      at2 (map (map Qc_mean) G) i j = frame_dy w c f i j.
Proof.
  intros Hf Hw.
  destruct (gradient_cols_spec _ h w c (frame_shape_map Qc_of_Z f h w c Hf) Hw)
    as (G & HG & HGs & Hat).
  exists G. split; [done|]. split; [by eapply field_shape_mean_channels|].
  intros i j Hi Hj. rewrite (at2_mean_channels G h w c) by done.
  unfold frame_dy. f_equal. apply map_ext. intros ch.
  rewrite Hat by done. unfold derivative.
  by rewrite !sample_to_float.
Qed.

Lemma stack_dx_spec (images : list frame) h w c :
  Forall (frame_shape h w c) images → (2 ≤ h)%nat →
  ∃ gx, gradient_axis1 (to_float images) = Ok gx ∧
    Forall (field_shape h w) (mean_axis3 gx) ∧
    ∀ i j, (i < h)%nat → (j < w)%nat →
      map (λ D, at2 D i j) (mean_axis3 gx)
      = map (λ f, frame_dx h c f i j) images.
Proof.
  intros Himg Hh. unfold gradient_axis1, to_float, mean_axis3.
  induction Himg as [|f images Hf _ (gx & Hgx & Hs & Hat)].
  { exists []. by repeat split. }
  destruct (frame_dx_spec f h w c Hf Hh) as (G & HG & HGs & HGat).
  exists (G :: gx). simpl. rewrite HG, Hgx. simpl.
  split; [done|]. split; [by constructor|].
  intros i j Hi Hj. by rewrite HGat, Hat.
Qed.

Lemma stack_dy_spec (images : list frame) h w c :
  Forall (frame_shape h w c) images → (2 ≤ w)%nat →
  ∃ gy, gradient_axis2 (to_float images) = Ok gy ∧
    Forall (field_shape h w) (mean_axis3 gy) ∧
    ∀ i j, (i < h)%nat → (j < w)%nat →
      map (λ D, at2 D i j) (mean_axis3 gy)
      = map (λ f, frame_dy w c f i j) images.
Proof.
  intros Himg Hw. unfold gradient_axis2, to_float, mean_axis3.
  induction Himg as [|f images Hf _ (gy & Hgy & Hs & Hat)].
  { exists []. by repeat split. }
  destruct (frame_dy_spec f h w c Hf Hw) as (G & HG & HGs & HGat).
  exists (G :: gy).
  change (rmapM (rmapM (gradient sub1 half1))
            (map (map (map (map Qc_of_Z))) (f :: images)))
    with (G' ←! rmapM (gradient sub1 half1) (map (map (map Qc_of_Z)) f);
          gs ←! rmapM (rmapM (gradient sub1 half1))
                  (map (map (map (map Qc_of_Z))) images);
          Ok (G' :: gs)).
  rewrite HG, Hgy. simpl.
  split; [done|]. split; [by constructor|].
  intros i j Hi Hj. by rewrite HGat, Hat.
Qed.

Lemma foldl_add2_spec (f : field) (fs : list field) h w :
  field_shape h w f → Forall (field_shape h w) fs →
  field_shape h w (foldl add2 f fs) ∧
  ∀ i j, at2 (foldl add2 f fs) i j
         = foldl Qcplus (at2 f i j) (map (λ g, at2 g i j) fs).
Proof.
  intros Hf Hfs. revert f Hf.
  induction Hfs as [|g fs Hg _ IH]; intros f Hf; simpl; [done|].
  destruct (IH (add2 f g)) as [Hs Hat];
    [by apply field_shape_zip_with|].
  split; [done|]. intros i j. rewrite Hat. f_equal.
  apply (at2_zip_with Qcplus f g h w); [ring|done..].
Qed.

Lemma mean_axis0_spec (a : list field) h w :
  a ≠ [] → Forall (field_shape h w) a →
  field_shape h w (mean_axis0 a) ∧
  ∀ i j, at2 (mean_axis0 a) i j = Qc_mean (map (λ g, at2 g i j) a).
Proof.
  intros Hne Ha. destruct a as [|f fs]; [done|]. inv Ha.
  destruct (foldl_add2_spec f fs h w) as [Hs Hat]; [done..|].
  unfold mean_axis0. split; [by apply field_shape_map|].
  intros i j.
  rewrite (at2_map (λ s, s / Qc_of_nat (length (f :: fs))))
    by apply Qc_div_0_l.
  rewrite Hat. unfold Qc_mean, Qc_sum. rewrite length_map. simpl.
  by rewrite Qcplus_0_l.
Qed.

Lemma at2_np_abs x i j : at2 (np_abs x) i j = Qcabs.Qcabs (at2 x i j).
Proof. apply (at2_map Qcabs.Qcabs). by apply Qcabs.Qcabs_pos. Qed.

(** The accumulated statistic of a non-empty stack, entry by entry. *)
Lemma mean_gradients_spec (images : list frame) (h w c : nat) :
  images ≠ [] →
  Forall (frame_shape h w c) images →
  (2 ≤ h)%nat → (2 ≤ w)%nat →
  ∃ mean_dx mean_dy,
    mean_gradients images = Ok (mean_dx, mean_dy) ∧
    field_shape h w mean_dx ∧ field_shape h w mean_dy ∧
    ∀ i j, (i < h)%nat → (j < w)%nat →
      at2 mean_dx i j
      = Qcabs.Qcabs (Qc_mean (map (λ f, frame_dx h c f i j) images)) ∧
      at2 mean_dy i j
      = Qcabs.Qcabs (Qc_mean (map (λ f, frame_dy w c f i j) images)).
Proof.
  intros Hn Himg Hh Hw.
  destruct (stack_dx_spec images h w c Himg Hh) as (gx & Hgx & Hxs & Hxat).
  destruct (stack_dy_spec images h w c Himg Hw) as (gy & Hgy & Hys & Hyat).
  assert (mean_axis3 gx ≠ [] ∧ mean_axis3 gy ≠ []) as [Hxne Hyne].
  { destruct images as [|f images]; [done|].
    specialize (Hxat 0%nat 0%nat). specialize (Hyat 0%nat 0%nat).
    split; intros Heq; rewrite Heq in *; simpl in *;
      [discriminate Hxat|discriminate Hyat]; lia. }
  destruct (mean_axis0_spec _ h w Hxne Hxs) as [Hmxs Hmxat].
  destruct (mean_axis0_spec _ h w Hyne Hys) as [Hmys Hmyat].
  unfold mean_gradients. rewrite Hgx, Hgy. simpl.
  eexists _, _. split; [done|].
  split; [by apply field_shape_map|]. split; [by apply field_shape_map|].
  intros i j Hi Hj.
  by rewrite !at2_np_abs, Hmxat, Hmyat, Hxat, Hyat.
Qed.

(** ** Which exceptions the mask pipeline raises *)

Lemma rmapM_raise_inv {X Y} (f : X → result Y) (l : list X) (e : exn) :
  rmapM f l = Raise e → ∃ a, a ∈ l ∧ f a = Raise e.
Proof.
  induction l as [|a l IH]; simpl; [done|].
  destruct (f a) as [b|e'] eqn:Ha; simpl.
  - destruct (rmapM f l) as [bs|e'']; simpl; [done|].
    intros [= <-]. destruct IH as (a' & ? & ?); [done|].
    exists a'. split; [by right|done].
  - intros [= <-]. exists a. split; [by left|done].
Qed.

Lemma gradient_raise_inv {X} (sub : X → X → X) (half : X → X) l e :
  gradient sub half l = Raise e → e = ValueError_gradient_too_small.
Proof. destruct l as [|a [|b l]]; simpl; congruence. Qed.

Lemma mean_gradients_raise_inv (images : list frame) (e : exn) :
  mean_gradients images = Raise e → e = ValueError_gradient_too_small.
Proof.
  unfold mean_gradients.
  destruct (gradient_axis1 (to_float images)) as [gx|e'] eqn:Hgx; simpl.
  - destruct (gradient_axis2 (to_float images)) as [gy|e''] eqn:Hgy;
      simpl; [done|].
    intros [= <-].
    apply rmapM_raise_inv in Hgy as (F & _ & HF).
    apply rmapM_raise_inv in HF as (R & _ & HR).
    by eapply gradient_raise_inv.
  - intros [= <-]. apply rmapM_raise_inv in Hgx as (F & _ & HF).
    by eapply gradient_raise_inv.
Qed.

Lemma normalize_raise_inv (x : field) (e : exn) :
  normalize x = Raise e → e = ValueError_zero_size.
Proof.
  unfold normalize, np_min, np_max.
  destruct (concat x); simpl; [congruence|].
  by case_bool_decide.
Qed.

Lemma np_array_raise_inv (buff : list frame) (e : exn) :
  np_array buff = Raise e → e = ValueError_inhomogeneous_shape.
Proof.
  unfold np_array. destruct buff; [done|]. case_match; congruence.
Qed.

Lemma np_array_ok_inv (buff images : list frame) :
  np_array buff = Ok images → images = buff.
Proof.
  unfold np_array. destruct buff; [congruence|]. case_match; congruence.
Qed.

Lemma watermark_mask_too_few `{Libs} (buff : list frame) :
  (length buff < 2)%nat →
  watermark_mask buff = Raise (ValueError_too_few_images (length buff)).
Proof. intros Hn. unfold watermark_mask. by rewrite bool_decide_true. Qed.

Lemma watermark_mask_raise_inv `{Libs} (buff : list frame) (e : exn) :
  (2 ≤ length buff)%nat → watermark_mask buff = Raise e →
  e = ValueError_inhomogeneous_shape ∨ e = ValueError_gradient_too_small ∨
  e = ValueError_zero_size.
Proof.
  intros Hn. unfold watermark_mask. rewrite bool_decide_false by lia.
  destruct (np_array buff) as [images|e'] eqn:Himg; simpl.
  - destruct (mean_gradients images) as [[mean_dx mean_dy]|e''] eqn:Hmg;
      simpl.
    + unfold mask_of_gradients.
      destruct (normalize _) as [s|e''] eqn:Hnorm; simpl; [done|].
      intros [= <-]. right; right. by eapply normalize_raise_inv.
    + intros [= <-]. right; left. by eapply mean_gradients_raise_inv.
  - intros [= <-]. left. by eapply np_array_raise_inv.
Qed.

(** ** Order of the frames *)



(** Two arrays of one shape with the same entries are the same array. *)
Lemma field_ext (x y : field) h w :
  field_shape h w x → field_shape h w y →
  (∀ i j, (i < h)%nat → (j < w)%nat → at2 x i j = at2 y i j) → x = y.
Proof.
  intros Hx Hy Hat.
  apply (nth_ext _ _ [] []); [destruct Hx, Hy; congruence|].
  intros i Hi. destruct Hx as [Hx Hxr].
  assert (i < h)%nat as Hi' by lia.
  pose proof (field_shape_nth x h w i (conj Hx Hxr) Hi') as Hrx.
  pose proof (field_shape_nth y h w i Hy Hi') as Hry.
  apply (nth_ext _ _ 0 0); [congruence|].
  intros j Hj. apply (Hat i j); lia.
Qed.

Lemma shape_of_frame_shape h w c (f g : frame) :
  frame_shape h w c f → frame_shape h w c g → shape f = shape g.
Proof.
  unfold shape, height, width, channels.
  intros [Hf Hfr] [Hg Hgr].
  destruct Hfr as [|x f [Hx Hxr] _], Hgr as [|y g [Hy Hyr] _];
    simplify_eq/=; [done|].
  destruct Hxr as [|p x Hp _], Hyr as [|q y Hq _]; simplify_eq/=; congruence.
Qed.

Lemma shape_frame_shape h w c (f : frame) :
  frame_shape h w c f → (0 < h)%nat → (0 < w)%nat → shape f = (h, w, c).
Proof.
  unfold shape, height, width, channels. intros [Hf Hfr] Hh Hw.
  destruct Hfr as [|x f [Hx Hxr] _]; simplify_eq/=; [lia|].
  destruct Hxr as [|p x Hp _]; simplify_eq/=; [lia|done].
Qed.

Lemma np_array_same_shape (buff : list frame) h w c :
  Forall (frame_shape h w c) buff → np_array buff = Ok buff.
Proof.
  intros Hb. unfold np_array. destruct buff as [|f fs]; [done|].
  apply Forall_cons in Hb as [Hf Hfs].
  rewrite (proj2 (forallb_forall _ _)); [done|].
  intros g Hg%list_elem_of_In. apply bool_decide_eq_true.
  eapply shape_of_frame_shape; [|done].
  by eapply (proj1 (Forall_forall _ _)).
Qed.

(** A stack that [np.array] accepts has frames of one shape. *)
Lemma np_array_ok_same_shape (buff images : list frame) (f g : frame) :
  np_array buff = Ok images → f ∈ buff → g ∈ buff → shape f = shape g.
Proof.
  unfold np_array. destruct buff as [|f0 fs]; [by intros _ ?%elem_of_nil|].
  destruct (forallb _ fs) eqn:Hall; [|done]. intros _.
  assert (∀ x, x ∈ f0 :: fs → shape x = shape f0) as Hx.
  { intros x [->|Hx]%elem_of_cons; [done|].
    rewrite forallb_forall in Hall.
    by apply (bool_decide_eq_true_1 _), Hall, list_elem_of_In. }
  intros Hf Hg. by rewrite (Hx f), (Hx g).
Qed.

Lemma np_array_mismatch (buff : list frame) (f g : frame) :
  f ∈ buff → g ∈ buff → shape f ≠ shape g →
  np_array buff = Raise ValueError_inhomogeneous_shape.
Proof.
  intros Hf Hg Hne. destruct (np_array buff) as [images|e] eqn:Harr.
  - destruct Hne. by eapply np_array_ok_same_shape.
  - f_equal. by eapply np_array_raise_inv.
Qed.

(** A stack whose frames have fewer than two rows, or fewer than two
    columns, makes [np.gradient] raise, whatever the order of the frames. *)
Lemma mean_gradients_too_small (images : list frame) h w c :
  images ≠ [] → Forall (frame_shape h w c) images →
  (h < 2 ∨ w < 2)%nat →
  mean_gradients images = Raise ValueError_gradient_too_small.
Proof.
  intros Hne Himg Hsmall. unfold mean_gradients.
  destruct images as [|f images]; [done|].
  pose proof (Forall_inv Himg) as [Hf Hfr].
  destruct (decide (h < 2)%nat) as [Hh|Hh].
  { unfold gradient_axis1, to_float. simpl.
    rewrite (gradient_too_small sub2 half2); [done|].
    rewrite !length_map. lia. }
  destruct (stack_dx_spec (f :: images) h w c) as (gx & -> & _);
    [done|lia|].
  simpl. unfold gradient_axis2, to_float.
  destruct f as [|r f]; [simpl in Hf; lia|].
  pose proof (Forall_inv Hfr) as [Hr _]. cbn [map rmapM].
  rewrite (gradient_too_small sub1 half1); [done|].
  rewrite !length_map. lia.
Qed.


(** ** The mask builder *)

Lemma threshold_pos : ¬ threshold < 0.
Proof. by apply Qcle_not_lt. Qed.

Lemma salient_field_spec (mean_dx mean_dy : field) h w :
  field_shape h w mean_dx → field_shape h w mean_dy →
  field_shape h w (salient_field mean_dx mean_dy) ∧
  ∀ i j, at2 (salient_field mean_dx mean_dy) i j
         = if decide (threshold < at2 mean_dx i j ∨
                      threshold < at2 mean_dy i j)
           then 1 else 0.
Proof.
  intros Hx Hy. split; [by apply field_shape_zip_with|].
  intros i j. unfold salient_field.
  rewrite (at2_zip_with _ mean_dx mean_dy h w) by
    (done || by rewrite !bool_decide_false by apply threshold_pos).
  do 2 case_bool_decide; case_decide; simpl; tauto.
Qed.

Lemma at2_elem_of (x : field) h w i j :
  field_shape h w x → (i < h)%nat → (j < w)%nat → at2 x i j ∈ concat x.
Proof.
  intros Hx Hi Hj. apply list_elem_of_In, in_concat. exists (nth i x []).
  pose proof (field_shape_nth x h w i Hx Hi). destruct Hx as [Hx _].
  split; apply nth_In; lia.
Qed.

Lemma Qc_div_range (a lo hi : Qc) :
  lo ≤ a → a ≤ hi → hi - lo ≠ 0 → 0 ≤ (a - lo) / (hi - lo) ≤ 1.
Proof.
  intros Hlo Hhi Hne.
  assert (0 < hi - lo) as Hpos.
  { apply (proj1 (Qclt_minus_iff lo hi)).
    apply Qcle_lt_or_eq in Hlo as [?| ->].
    - by eapply Qclt_le_trans.
    - apply Qcle_lt_or_eq in Hhi as [?| ->]; [done|].
      destruct Hne. ring. }
  split.
  - apply (Qcmult_le_mono_pos_r _ _ (hi - lo)); [done|].
    rewrite Qcmult_0_l.
    replace ((a - lo) / (hi - lo) * (hi - lo)) with (a - lo) by by field.
    by apply (proj1 (Qcle_minus_iff lo a)).
  - apply (Qcmult_le_mono_pos_r _ _ (hi - lo)); [done|].
    rewrite Qcmult_1_l.
    replace ((a - lo) / (hi - lo) * (hi - lo)) with (a - lo) by by field.
    by apply Qcplus_le_mono_r.
Qed.

Lemma nth_map_lt {X Y} (f : X → Y) l i dx dy :
  (i < length l)%nat → nth i (map f l) dy = f (nth i l dx).
Proof.
  intros Hi. rewrite (nth_indep (map f l) dy (f dx)) by by rewrite length_map.
  apply map_nth.
Qed.

Lemma at2_map_lt (g : Qc → Qc) x h w i j :
  field_shape h w x → (i < h)%nat → (j < w)%nat →
  at2 (map (map g) x) i j = g (at2 x i j).
Proof.
  intros Hx Hi Hj. unfold at2, at1.
  pose proof (field_shape_nth x h w i Hx Hi). destruct Hx as [Hx _].
  rewrite (nth_map_lt (map g) x i [] []) by lia.
  by rewrite (nth_map_lt g _ j 0 0) by lia.
Qed.

Lemma mask_at_binarize (s : field) h w i j :
  field_shape h w s → (i < h)%nat → (j < w)%nat →
  mask_at (binarize s) i j
  = if decide (Q2Qc (2 # 10) < at2 s i j) then 255%Z else 0%Z.
Proof.
  intros Hs Hi Hj. unfold mask_at, binarize, at2, at1.
  pose proof (field_shape_nth s h w i Hs Hi). destruct Hs as [Hs _].
  rewrite (nth_map_lt _ s i [] []) by lia.
  rewrite (nth_map_lt _ _ j 0 0%Z) by lia.
  case_bool_decide; by case_decide.
Qed.

Lemma binarize_values (s : field) r v :
  r ∈ binarize s → v ∈ r → v = 0%Z ∨ v = 255%Z.
Proof.
  unfold binarize. intros (r' & <- & _)%list_elem_of_In%in_map_iff.
  intros (e & <- & _)%list_elem_of_In%in_map_iff.
  case_bool_decide; auto.
Qed.

Lemma normalize_spec (x : field) h w :
  field_shape h w x → (0 < h)%nat → (0 < w)%nat →
  ∃ lo hi norm,
    np_min x = Ok lo ∧ np_max x = Ok hi ∧ normalize x = Ok norm ∧
    field_shape h w norm ∧
    ∀ i j, (i < h)%nat → (j < w)%nat →
      at2 norm i j
      = (if decide (hi - lo = 0) then 0 else (at2 x i j - lo) / (hi - lo)) ∧
      0 ≤ at2 norm i j ≤ 1.
Proof.
  intros Hx Hh Hw.
  destruct (np_min_max_defined x) as (lo & hi & Hlo & Hhi).
  { intros Hnil. pose proof (at2_elem_of x h w 0 0 Hx Hh Hw) as Hin.
    rewrite Hnil in Hin. by apply elem_of_nil in Hin. }
  destruct (np_min_spec x lo Hlo) as [_ Hmin].
  destruct (np_max_spec x hi Hhi) as [_ Hmax].
  unfold normalize. rewrite Hlo, Hhi. simpl.
  exists lo, hi. case_bool_decide as Heq.
  - eexists. do 3 (split; [done|]). split; [by apply field_shape_map|].
    intros i j Hi Hj. rewrite decide_True by done.
    unfold zeros_like. rewrite (at2_map (λ _, 0)) by done.
    split; [done|]. split; [apply Qcle_refl|done].
  - eexists. do 3 (split; [done|]). split; [by apply field_shape_map|].
    intros i j Hi Hj. rewrite decide_False by done.
    rewrite (at2_map_lt _ x h w) by done. split; [done|].
    pose proof (at2_elem_of x h w i j Hx Hi Hj) as Hin.
    apply Qc_div_range; auto.
Qed.

(** On fields of one shape with at least one pixel the mask builder
    returns a mask of that shape. *)
Lemma mask_of_gradients_ok `{Libs} (mean_dx mean_dy : field) (h w : nat) :
  shape_preserving gaussian_filter →
  field_shape h w mean_dx → field_shape h w mean_dy →
  (0 < h)%nat → (0 < w)%nat →
  ∃ m, mask_of_gradients mean_dx mean_dy = Ok m ∧ field_shape h w m.
Proof.
  intros Hfilter Hx Hy Hh Hw.
  destruct (salient_field_spec mean_dx mean_dy h w Hx Hy) as [Hss _].
  pose proof (Hfilter _ (Qc_of_Z 3) h w Hss) as Hsm.
  destruct (normalize_spec _ h w Hsm Hh Hw)
    as (lo & hi & norm & _ & _ & Hnorm & Hns & _).
  exists (binarize norm). unfold mask_of_gradients. rewrite Hnorm.
  split; [done|]. by apply field_shape_map.
Qed.

(** ** File names *)

Lemma string_app_cons (c : ascii) (a b : string) :
  String c a +:+ b = String c (a +:+ b).
Proof. done. Qed.

Lemma string_length_app (a b : string) :
  String.length (a +:+ b) = (String.length a + String.length b)%nat.
Proof.
  induction a as [|c a IH]; [done|]. rewrite string_app_cons. cbn.
  by rewrite IH.
Qed.

Lemma string_app_inj_r (a b t : string) : a +:+ t = b +:+ t → a = b.
Proof.
  revert b. induction a as [|c a IH]; intros [|c' b] Heq.
  - done.
  - apply (f_equal String.length) in Heq.
    rewrite !string_length_app in Heq. cbn in Heq. lia.
  - apply (f_equal String.length) in Heq.
    rewrite !string_length_app in Heq. cbn in Heq. lia.
  - rewrite !string_app_cons in Heq. injection Heq as -> Heq.
    f_equal. by apply IH.
Qed.

Lemma substring_all (s : string) : String.substring 0 (String.length s) s = s.
Proof. induction s as [|c s IH]; [done|]. cbn. by rewrite IH. Qed.

Lemma ends_with_app (a suffix : string) : ends_with suffix (a +:+ suffix) = true.
Proof.
  induction a as [|c a IH].
  - change (EmptyString +:+ suffix) with suffix.
    destruct suffix; cbn [ends_with]; by rewrite String.eqb_refl.
  - rewrite string_app_cons. cbn [ends_with]. rewrite IH. apply orb_true_r.
Qed.

Global Instance output_name_inj : Inj (=) (=) output_name.
Proof.
  intros k k' Heq. unfold output_name in Heq.
  apply (inj (String.app "output_")) in Heq.
  apply string_app_inj_r in Heq. by apply (inj pretty).
Qed.

Lemma glob_output_name (k : nat) : glob_output_png (output_name k) = true.
Proof.
  unfold glob_output_png, output_name.
  change ("output_" +:+ pretty k +:+ ".png")
    with (String "o" (String "u" (String "t" (String "p" (String "u"
           (String "t" (String "_" (pretty k +:+ ".png")))))))).
  cbn [String.prefix String.length String.substring Nat.sub].
  repeat match goal with
    | |- context [ascii_dec ?a ?b] =>
        destruct (ascii_dec a b) as [_|?]; [|done]
    end.
  assert (∀ s, String.prefix "" s = true) as -> by (by intros []).
  by rewrite Nat.sub_0_r, substring_all, ends_with_app.
Qed.

Lemma filter_Forall_id {X} (P : X → Prop) `{∀ x, Decision (P x)} (l : list X) :
  Forall P l → filter P l = l.
Proof.
  induction 1 as [|x l Hx _ IH]; [done|].
  by rewrite filter_cons_True, IH.
Qed.

(** ** The extraction loop *)

Section extraction.
Context `{Libs} (v : video).

Lemma extract_frame_unfold (c : nat) (d : directory) (ts : string) :
  extract_frame v (c, d) ts
  = match py_float ts with
    | None => (c, d)
    | Some t =>
        (S c,
         match ffmpeg_frame v t with
         | Some png => <[output_name c := png]> d
         | None => d
         end)
    end.
Proof. done. Qed.

Lemma extract_frames_counter (l : list string) (c : nat) (d : directory) :
  (foldl (extract_frame v) (c, d) l).1
  = (c + length (filter (λ ts, parses ts) l))%nat.
Proof.
  revert c d. induction l as [|ts l IH]; intros c d; [simpl; lia|].
  cbn [foldl]. rewrite extract_frame_unfold.
  destruct (py_float ts) as [t|] eqn:Hts.
  - rewrite IH, filter_cons_True; [simpl; lia|].
    unfold parses. rewrite Hts. by apply bool_decide_pack.
  - rewrite IH, filter_cons_False; [done|].
    unfold parses. rewrite Hts. intros ?%bool_decide_unpack.
    by eapply is_Some_None.
Qed.

Lemma names_below_mono c c' d :
  (c ≤ c')%nat → names_below c d → names_below c' d.
Proof. intros Hc Hd name [k [? ->]]%Hd. exists k. split; [lia|done]. Qed.

Lemma names_below_fresh c d : names_below c d → d !! output_name c = None.
Proof.
  intros Hd. destruct (d !! output_name c) eqn:Hc; [|done].
  destruct (Hd (output_name c)) as (k & Hk & Heq); [by rewrite Hc|].
  apply (inj output_name) in Heq. lia.
Qed.

Lemma extract_frames_directory (l : list string) (c : nat) (d : directory) :
  names_below c d →
  names_below (foldl (extract_frame v) (c, d) l).1
              (foldl (extract_frame v) (c, d) l).2 ∧
  size (foldl (extract_frame v) (c, d) l).2
  = (size d + length (filter (λ ts, decodes v ts) l))%nat.
Proof.
  revert c d. induction l as [|ts l IH]; intros c d Hd.
  { simpl. split; [done|lia]. }
  cbn [foldl]. rewrite extract_frame_unfold.
  destruct (py_float ts) as [t|] eqn:Hts.
  - destruct (ffmpeg_frame v t) as [png|] eqn:Hpng.
    + destruct (IH (S c) (<[output_name c:=png]> d)) as [Hn Hs].
      { intros name [Hin|Hin]%lookup_insert_is_Some.
        - exists c. split; [lia|done].
        - destruct Hin as [_ Hin]. apply Hd in Hin as (k & ? & ->).
          exists k. split; [lia|done]. }
      split; [done|]. rewrite Hs, filter_cons_True.
      * rewrite map_size_insert_None by by apply names_below_fresh.
        simpl. lia.
      * unfold decodes. rewrite Hts, Hpng. by apply bool_decide_pack.
    + destruct (IH (S c) d) as [Hn Hs].
      { eapply names_below_mono; [|done]. lia. }
      split; [done|]. rewrite Hs, filter_cons_False; [done|].
      unfold decodes. rewrite Hts, Hpng. intros ?%bool_decide_unpack.
      by eapply is_Some_None.
  - destruct (IH c d Hd) as [Hn Hs]. split; [done|].
    rewrite Hs, filter_cons_False; [done|].
    unfold decodes. rewrite Hts. simpl. tauto.
Qed.

Lemma decodes_parses (ts : string) : decodes v ts → parses ts.
Proof.
  unfold decodes, parses. destruct (py_float ts); [|done].
  intros _. by apply bool_decide_pack.
Qed.

Lemma count_decodes_le_parses (l : list string) :
  (length (filter (λ ts, decodes v ts) l)
   ≤ length (filter (λ ts, parses ts) l))%nat.
Proof.
  induction l as [|ts l IH]; [done|].
  destruct (decide (decodes v ts)) as [Hd|Hd].
  - rewrite !filter_cons_True by auto using decodes_parses. simpl. lia.
  - rewrite (filter_cons_False (λ ts, decodes v ts)) by done.
    destruct (decide (parses ts)).
    + rewrite filter_cons_True by done. simpl. lia.
    + by rewrite filter_cons_False.
Qed.

End extraction.

(** The frames read back are the files of the directory. *)
Lemma read_frames_length (c : nat) (d : directory) :
  names_below c d → length (read_frames d) = size d.
Proof.
  intros Hd. unfold read_frames.
  rewrite length_map, merge_sort_Permutation, filter_Forall_id.
  { apply length_map_to_list. }
  rewrite Forall_forall. intros [name png] Hin%elem_of_map_to_list.
  destruct (Hd name) as (k & _ & ->); [by rewrite Hin|].
  simpl. by rewrite glob_output_name.
Qed.

(** The frames read back are exactly the contents of the files whose name
    matches the pattern. *)
Lemma elem_of_read_frames (d : directory) (png : frame) :
  png ∈ read_frames d ↔
  ∃ name, glob_output_png name = true ∧ d !! name = Some png.
Proof.
  unfold read_frames. rewrite list_elem_of_In, in_map_iff. split.
  - intros ([name png'] & <- & Hin%list_elem_of_In).
    rewrite merge_sort_Permutation in Hin.
    apply list_elem_of_filter in Hin as [Hglob Hin%elem_of_map_to_list].
    exists name. split; [by apply Is_true_true|done].
  - intros (name & Hglob & Hin). exists (name, png). split; [done|].
    apply list_elem_of_In. rewrite merge_sort_Permutation.
    apply list_elem_of_filter. split; [by apply Is_true_true|].
    by apply elem_of_map_to_list.
Qed.

(** ** The mask of a list of frames *)

Lemma mask_of_gradients_values `{Libs} (mean_dx mean_dy : field) (m : mask) :
  mask_of_gradients mean_dx mean_dy = Ok m →
  ∀ r v, r ∈ m → v ∈ r → v = 0%Z ∨ v = 255%Z.
Proof.
  unfold mask_of_gradients. destruct (normalize _) as [s|e]; simpl; [|done].
  intros [= <-] r v. apply binarize_values.
Qed.

Lemma watermark_mask_ok_inv `{Libs} (buff : list frame) (m : mask) h w c :
  shape_preserving gaussian_filter →
  Forall (frame_shape h w c) buff →
  watermark_mask buff = Ok m →
  field_shape h w m ∧ ∀ r v, r ∈ m → v ∈ r → v = 0%Z ∨ v = 255%Z.
Proof.
  intros Hfilter Hbuff. unfold watermark_mask.
  case_bool_decide as Hlen; [done|].
  rewrite (np_array_same_shape buff h w c Hbuff). simpl.
  assert (buff ≠ []) as Hne by (intros ->; simpl in Hlen; lia).
  destruct (decide (h < 2 ∨ w < 2)%nat) as [Hsmall|Hbig].
  { by rewrite (mean_gradients_too_small buff h w c). }
  destruct (mean_gradients_spec buff h w c)
    as (mean_dx & mean_dy & -> & Hxs & Hys & _); [done|done|lia|lia|].
  simpl. intros Hm. split; [|by eapply mask_of_gradients_values].
  destruct (mask_of_gradients_ok mean_dx mean_dy h w)
    as (m' & Hm' & Hms); [done..|lia|lia|].
  congruence.
Qed.


Lemma two_elements_length {X} (l : list X) (x y : X) :
  x ∈ l → y ∈ l → x ≠ y → (2 ≤ length l)%nat.
Proof.
  destruct l as [|a [|b l]]; simpl; [by intros ?%elem_of_nil| |lia].
  intros ->%list_elem_of_singleton ->%list_elem_of_singleton. done.
Qed.

(** ** The accumulated statistic *)

(** C1: on a stack of two or more decoded frames of one shape, the
    accumulated statistic is, at every pixel, the absolute value of the mean
    over the frames of the signed per-frame derivative (itself the mean over
    the colour channels of the discrete derivative of the samples): the
    absolute value is taken once, of the mean over the frames.  The
    statistic is computed whenever the frames have two rows and two columns
    at least. *)
Theorem mean_gradients_abs_of_mean (images : list frame) (h w c : nat) :
  (2 ≤ length images)%nat →
  Forall (frame_shape h w c) images →
  (0 < c)%nat →
  (∀ mean_dx mean_dy,
     mean_gradients images = Ok (mean_dx, mean_dy) →
     field_shape h w mean_dx ∧ field_shape h w mean_dy ∧
     ∀ i j, (i < h)%nat → (j < w)%nat →
       at2 mean_dx i j
       = Qcabs.Qcabs (Qc_mean (map (λ f, frame_dx h c f i j) images)) ∧
       at2 mean_dy i j
       = Qcabs.Qcabs (Qc_mean (map (λ f, frame_dy w c f i j) images))) ∧
  ((2 ≤ h)%nat → (2 ≤ w)%nat →
   ∃ mean_dx mean_dy, mean_gradients images = Ok (mean_dx, mean_dy)).
Proof.
  intros Hn Himg _.
  assert (images ≠ []) as Hne by (intros ->; simpl in Hn; lia).
  split.
  - intros mean_dx mean_dy Hok.
    destruct (decide (h < 2 ∨ w < 2)%nat) as [Hsmall|Hbig].
    { by rewrite (mean_gradients_too_small images h w c) in Hok. }
    destruct (mean_gradients_spec images h w c)
      as (mean_dx' & mean_dy' & Hok' & Hspec); [done|done|lia|lia|].
    rewrite Hok in Hok'. by injection Hok' as <- <-.
  - intros Hh Hw.
    destruct (mean_gradients_spec images h w c)
      as (mean_dx & mean_dy & Hok & _); [done..|].
    by exists mean_dx, mean_dy.
Qed.

(** ** The mask builder, step by step *)

(** C2: from the final absolute mean gradient fields, the mask is obtained
    by (1) marking a pixel salient when its row or its column statistic
    exceeds 10, (2) smoothing the 0/1 salient field with [gaussian_filter]
    at sigma 3, (3) min-max normalising the smoothed field, which puts every
    value in [0, 1] (all zeros when the smoothed field is uniform), and
    (4) setting a pixel to 255 when its normalised value exceeds 0.2 and to
    0 otherwise. *)
Theorem mask_of_gradients_steps `{Libs} (mean_dx mean_dy : field) (h w : nat) :
  shape_preserving gaussian_filter →
  field_shape h w mean_dx → field_shape h w mean_dy →
  (0 < h)%nat → (0 < w)%nat →
  ∃ (smooth : field) (lo hi : Qc) (m : mask),
    smooth = gaussian_filter (salient_field mean_dx mean_dy) (Qc_of_Z 3) ∧
    np_min smooth = Ok lo ∧ np_max smooth = Ok hi ∧
    mask_of_gradients mean_dx mean_dy = Ok m ∧
    field_shape h w m ∧
    ∀ i j, (i < h)%nat → (j < w)%nat →
      at2 (salient_field mean_dx mean_dy) i j
      = (if decide (Qc_of_Z 10 < at2 mean_dx i j ∨
                    Qc_of_Z 10 < at2 mean_dy i j)
         then 1 else 0) ∧
      let n := if decide (hi - lo = 0) then 0
               else (at2 smooth i j - lo) / (hi - lo) in
      0 ≤ n ≤ 1 ∧
      mask_at m i j = if decide (Q2Qc (2 # 10) < n) then 255%Z else 0%Z.
Proof.
  intros Hfilter Hx Hy Hh Hw.
  destruct (salient_field_spec mean_dx mean_dy h w Hx Hy) as [Hss Hsat].
  pose proof (Hfilter _ (Qc_of_Z 3) h w Hss) as Hsm.
  destruct (normalize_spec _ h w Hsm Hh Hw)
    as (lo & hi & norm & Hlo & Hhi & Hnorm & Hns & Hnat).
  exists (gaussian_filter (salient_field mean_dx mean_dy) (Qc_of_Z 3)).
  exists lo, hi, (binarize norm).
  split; [done|]. do 2 (split; [done|]).
  unfold mask_of_gradients. rewrite Hnorm. simpl. split; [done|].
  split; [by apply field_shape_map|].
  intros i j Hi Hj. split; [apply Hsat|].
  destruct (Hnat i j Hi Hj) as [Heq Hrange]. simpl.
  rewrite <-Heq. split; [done|].
  by apply (mask_at_binarize norm h w).
Qed.

(** ** Errors of the mask computation *)

(** C3: once the timestamps are selected, the run fails with an error of
    the class [InsufficientSamplesError] whenever fewer than two of the
    requested samples decode successfully, and with two or more decoded
    samples it raises no error of that class. *)
Theorem main_insufficient_samples `{Libs} (v : video) (max_frames : Z)
    (g : rng_state) (keyframes_time : list string) :
  (extract_keyframes v max_frames g).1 = Ok keyframes_time →
  let decoded := length (filter (λ ts, decodes v ts) keyframes_time) in
  ((decoded < 2)%nat →
   ∃ e, (main v max_frames g).1 = Raise e ∧
        classify e = InsufficientSamplesError) ∧
  ((2 ≤ decoded)%nat →
   ∀ e, (main v max_frames g).1 = Raise e →
        classify e ≠ InsufficientSamplesError).
Proof.
  intros Hkeys decoded. unfold main.
  destruct (extract_keyframes v max_frames g) as [r g']. simpl in Hkeys.
  subst r. cbn [rbind fst].
  pose proof (extract_frames_counter v keyframes_time 0 ∅) as Hcount.
  destruct (extract_frames_directory v keyframes_time 0 ∅) as [Hnames Hsize].
  { intros name [png Hpng]. by rewrite lookup_empty in Hpng. }
  rewrite map_size_empty in Hsize.
  pose proof (count_decodes_le_parses v keyframes_time) as Hle.
  fold (extract_frames v keyframes_time ∅) in Hcount, Hnames, Hsize.
  destruct (extract_frames v keyframes_time ∅) as [frame_count tmpdir].
  simpl in Hcount, Hnames, Hsize.
  pose proof (read_frames_length _ _ Hnames) as Hread.
  fold decoded in Hsize, Hle.
  case_bool_decide as Hfc; split.
  - intros _. by eexists.
  - intros Hdec. lia.
  - intros Hdec. eexists. split.
    + unfold extract_watermark_mask.
      apply watermark_mask_too_few. lia.
    + done.
  - intros Hdec e Hraise. unfold extract_watermark_mask in Hraise.
    apply watermark_mask_raise_inv in Hraise as [->|[->| ->]]; [done..|lia].
Qed.

(** C6: when two of the frames read back differ in height or in width, so
    that some frame differs from the first one, the computation fails with
    an error of the class [DimensionMismatchError] and returns no mask. *)
Theorem extract_watermark_mask_dimension_mismatch `{Libs}
    (tmpdir : directory) (f g : frame) :
  f ∈ read_frames tmpdir → g ∈ read_frames tmpdir →
  height f ≠ height g ∨ width f ≠ width g →
  extract_watermark_mask tmpdir = Raise ValueError_inhomogeneous_shape ∧
  classify ValueError_inhomogeneous_shape = DimensionMismatchError.
Proof.
  intros Hf Hg Hdiff. split; [|done].
  assert (shape f ≠ shape g) as Hshape.
  { unfold shape. intros [= ? ? ?]. tauto. }
  unfold extract_watermark_mask, watermark_mask.
  rewrite bool_decide_false.
  - by rewrite (np_array_mismatch _ f g).
  - assert (f ≠ g) as Hne by congruence.
    pose proof (two_elements_length _ f g Hf Hg Hne). lia.
Qed.

(** ** The mask *)

(** C8: when [extract_watermark_mask] returns a mask, the mask is a
    two-dimensional (single-channel) array with the height and the width of
    every input frame, and each of its values is 0 or 255. *)
Theorem extract_watermark_mask_shape_values `{Libs} (tmpdir : directory)
    (m : mask) :
  shape_preserving gaussian_filter →
  Forall decoded_image (read_frames tmpdir) →
  extract_watermark_mask tmpdir = Ok m →
  (∀ f, f ∈ read_frames tmpdir → field_shape (height f) (width f) m) ∧
  (∀ r v, r ∈ m → v ∈ r → v = 0%Z ∨ v = 255%Z).
Proof.
  intros Hfilter Himg Hm. unfold extract_watermark_mask in Hm.
  set (buff := read_frames tmpdir) in *.
  destruct (np_array buff) as [images|e] eqn:Harr.
  2:{ unfold watermark_mask in Hm. rewrite Harr in Hm.
      by case_bool_decide. }
  destruct buff as [|f0 fs] eqn:Hbuff; [done|].
  assert (Forall (frame_shape (height f0) (width f0) (channels f0))
            (f0 :: fs)) as Hshape.
  { rewrite Forall_forall in Himg. rewrite Forall_forall. intros f Hf.
    destruct (Himg f Hf) as (_ & _ & _ & Hfs).
    assert (shape f = shape f0) as [= Hh Hw Hc];
      [|by rewrite <-Hh, <-Hw, <-Hc].
    eapply np_array_ok_same_shape; [done..|by left]. }
  destruct (watermark_mask_ok_inv _ m _ _ _ Hfilter Hshape Hm) as [Hms Hv].
  split; [|done]. intros f Hf.
  assert (shape f = shape f0) as [= Hh Hw _]; [|by rewrite Hh, Hw].
  eapply np_array_ok_same_shape; [done..|by left].
Qed.


(** ** Frame extraction *)

(** C9: the count returned by [extract_frames] is the number of entries
    that [float()] accepts; it is the same for every behaviour of the
    decoder, an entry being counted whether or not an image was written for
    it, while the images written are those of the entries that decode. *)
Theorem extract_frames_counts_parsed `{Libs} (v : video)
    (keyframes_time : list string) (tmpdir : directory) :
  (extract_frames v keyframes_time tmpdir).1
  = length (filter (λ ts, parses ts) keyframes_time) ∧
  (∀ v' : video,
     (extract_frames v' keyframes_time tmpdir).1
     = (extract_frames v keyframes_time tmpdir).1) ∧
  (size (extract_frames v keyframes_time ∅).2
   = length (filter (λ ts, decodes v ts) keyframes_time)).
Proof.
  unfold extract_frames. split; [|split].
  - by rewrite extract_frames_counter.
  - intros v'. by rewrite !extract_frames_counter.
  - destruct (extract_frames_directory v keyframes_time 0 ∅) as [_ ->].
    + intros name [png Hpng]. by rewrite lookup_empty in Hpng.
    + by rewrite map_size_empty.
Qed.

(** ** Timestamp selection *)

Lemma sorted_set_nil_inv (l : list string) : sorted_set l = [] → l = [].
Proof.
  unfold sorted_set. intros Hs.
  assert (remove_dups l = []) as Hr.
  { apply Permutation_nil_r. rewrite <-Hs.
    by rewrite merge_sort_Permutation. }
  destruct l as [|x l]; [done|].
  assert (x ∈ remove_dups (x :: l)) as Hx
    by (apply elem_of_remove_dups; by left).
  rewrite Hr in Hx. by apply elem_of_nil in Hx.
Qed.

Lemma probed_keyframes_none (v : video) :
  probed_keyframes v = None ↔
  ffprobe_keyframes v = None ∨
  ∃ stdout, ffprobe_keyframes v = Some stdout ∧ parse_keyframes stdout = [].
Proof.
  unfold probed_keyframes. destruct (ffprobe_keyframes v) as [stdout|].
  - destruct (sorted_set (parse_keyframes stdout)) eqn:Hs.
    + apply sorted_set_nil_inv in Hs. naive_solver.
    + split; [done|]. intros [?|(? & [= <-] & Hnil)]; [done|].
      by rewrite Hnil in Hs.
  - naive_solver.
Qed.

(** C5: the timestamps selected do not depend on the state in which the
    global random generator is found: from any two generator states, the
    same video and the same [max_frames] give the same sequence. *)
Theorem extract_keyframes_deterministic `{Libs} (v : video) (max_frames : Z)
    (g1 g2 : rng_state) :
  (extract_keyframes v max_frames g1).1
  = (extract_keyframes v max_frames g2).1.
Proof.
  unfold extract_keyframes. destruct (probed_keyframes v); [|done].
  by destruct (np_random_shuffle _ _).
Qed.

(** C7, the claim as amended: when no keyframe list exists (the probe fails
    or yields no timestamp), the selection fails with an error of the class
    [InputError] when the duration is unknown, that is when its text is not
    a number; when the duration is a number, positive or not, and
    [max_frames] is not zero, the selection returns the uniform grid. *)
Theorem extract_keyframes_without_keyframes `{Libs} (v : video)
    (max_frames : Z) (g : rng_state) :
  (ffprobe_keyframes v = None ∨
   ∃ stdout, ffprobe_keyframes v = Some stdout ∧
             parse_keyframes stdout = []) →
  (py_float (duration_text v) = None →
   ∃ e, (extract_keyframes v max_frames g).1 = Raise e ∧
        classify e = InputError) ∧
  (∀ duration, py_float (duration_text v) = Some duration →
   max_frames ≠ 0%Z →
   (extract_keyframes v max_frames g).1
   = Ok (uniform_grid duration max_frames)).
Proof.
  intros Hnone%probed_keyframes_none. unfold extract_keyframes.
  rewrite Hnone. split.
  - intros ->. by eexists.
  - intros duration -> Hmax. simpl. by rewrite bool_decide_false.
Qed.

(** ** The reference instances *)

Lemma smooth3_length {A} (comb : A → A → A → A) (d : A) (l : list A) :
  length (smooth3 comb d l) = length l.
Proof. unfold smooth3. by rewrite length_map, length_seq. Qed.

Lemma binomial_filter_shape : shape_preserving binomial_filter.
Proof.
  intros x sigma h w [Hx Hxr]. unfold binomial_filter.
  set (y := map (smooth3 kernel3 0) x).
  assert (field_shape h w y) as Hy.
  { split; [by unfold y; rewrite length_map|].
    apply Forall_map. eapply Forall_impl; [done|].
    intros r Hr. simpl. by rewrite smooth3_length. }
  split; [by rewrite smooth3_length; destruct Hy|].
  unfold smooth3. apply Forall_map, Forall_forall.
  intros i [_ Hi]%elem_of_seq. simpl in *. destruct Hy as [Hylen Hyr].
  unfold kernel3_rows. rewrite length_zip_with, length_zip.
  rewrite !(field_shape_nth y h w) by (done || lia). lia.
Qed.

(** ** The claims on sample inputs *)

(** The example of numpy's documentation:
    [np.gradient([1, 2, 4, 7, 11, 16])] is [[1, 1.5, 2.5, 3.5, 4.5, 5]]. *)
Example gradient_sample :
  gradient Qcminus (λ e, e / 2)
    (map Qc_of_Z [1; 2; 4; 7; 11; 16]%Z)
  = Ok [Qc_of_Z 1; Q2Qc (3 # 2); Q2Qc (5 # 2); Q2Qc (7 # 2); Q2Qc (9 # 2);
        Qc_of_Z 5].
Proof. apply (bool_decide_unpack _). by vm_compute. Qed.

Example normalize_sample :
  normalize [[Qc_of_Z 1; Qc_of_Z 3]; [Qc_of_Z 2; Qc_of_Z 5]]
  = Ok [[0; Q2Qc (1 # 2)]; [Q2Qc (1 # 4); 1]].
Proof. apply (bool_decide_unpack _). by vm_compute. Qed.

Example normalize_uniform_sample :
  normalize [[Qc_of_Z 7; Qc_of_Z 7]; [Qc_of_Z 7; Qc_of_Z 7]]
  = Ok [[0; 0]; [0; 0]].
Proof. apply (bool_decide_unpack _). by vm_compute. Qed.

(** C1 on two frames whose row derivatives are opposite. *)
Lemma mean_gradients_abs_of_mean_witness :
  (2 ≤ length [frame_up; frame_down])%nat ∧
  Forall (frame_shape 2 2 1) [frame_up; frame_down] ∧
  (∀ mean_dx mean_dy,
     mean_gradients [frame_up; frame_down] = Ok (mean_dx, mean_dy) →
     field_shape 2 2 mean_dx ∧ field_shape 2 2 mean_dy ∧
     ∀ i j, (i < 2)%nat → (j < 2)%nat →
       at2 mean_dx i j
       = Qcabs.Qcabs
           (Qc_mean (map (λ f, frame_dx 2 1 f i j) [frame_up; frame_down])) ∧
       at2 mean_dy i j
       = Qcabs.Qcabs
           (Qc_mean (map (λ f, frame_dy 2 1 f i j) [frame_up; frame_down]))) ∧
  ((2 ≤ 2)%nat → (2 ≤ 2)%nat →
   ∃ mean_dx mean_dy,
     mean_gradients [frame_up; frame_down] = Ok (mean_dx, mean_dy)).
Proof.
  assert (Forall (frame_shape 2 2 1) [frame_up; frame_down]) as Hshape
    by repeat constructor.
  split; [simpl; lia|]. split; [done|].
  apply (mean_gradients_abs_of_mean [frame_up; frame_down] 2 2 1);
    [simpl; lia|done|lia].
Defined.

(** The opposite derivatives cancel in the statistic, although each frame
    has a derivative of magnitude 20 at every pixel: the mean of the
    absolute values would be 20. *)
Example mean_gradients_cancels :
  ∃ mean_dx mean_dy,
    mean_gradients [frame_up; frame_down] = Ok (mean_dx, mean_dy) ∧
    at2 mean_dx 0 0 = 0 ∧
    Qc_mean (map (λ f, Qcabs.Qcabs (frame_dx 2 1 f 0 0)) [frame_up; frame_down])
    = Qc_of_Z 20.
Proof.
  eexists _, _. split; [done|].
  split; apply Qc_is_canon; by vm_compute.
Qed.

(** C2 with the binomial smoothing. *)
Lemma mask_of_gradients_steps_witness :
  field_shape 2 2 sample_mean_dx ∧ field_shape 2 2 sample_mean_dy ∧
  ∃ (smooth : field) (lo hi : Qc) (m : mask),
    smooth = binomial_filter (salient_field sample_mean_dx sample_mean_dy)
               (Qc_of_Z 3) ∧
    np_min smooth = Ok lo ∧ np_max smooth = Ok hi ∧
    @mask_of_gradients reference_libs sample_mean_dx sample_mean_dy = Ok m ∧
    field_shape 2 2 m ∧
    ∀ i j, (i < 2)%nat → (j < 2)%nat →
      at2 (salient_field sample_mean_dx sample_mean_dy) i j
      = (if decide (Qc_of_Z 10 < at2 sample_mean_dx i j ∨
                    Qc_of_Z 10 < at2 sample_mean_dy i j)
         then 1 else 0) ∧
      let n := if decide (hi - lo = 0) then 0
               else (at2 smooth i j - lo) / (hi - lo) in
      0 ≤ n ≤ 1 ∧
      mask_at m i j = if decide (Q2Qc (2 # 10) < n) then 255%Z else 0%Z.
Proof.
  assert (field_shape 2 2 sample_mean_dx) as Hdx by repeat constructor.
  assert (field_shape 2 2 sample_mean_dy) as Hdy by repeat constructor.
  do 2 (split; [done|]).
  apply (@mask_of_gradients_steps reference_libs
           sample_mean_dx sample_mean_dy 2 2);
    [apply binomial_filter_shape|done|done|lia|lia].
Defined.

Example mask_of_gradients_sample :
  @mask_of_gradients reference_libs sample_mean_dx sample_mean_dy
  = Ok [[255; 255]; [0; 255]]%Z.
Proof. by vm_compute. Qed.

(** C3 on a video of which one sample out of two decodes. *)
Lemma main_insufficient_samples_witness :
  (@extract_keyframes reference_libs (sample_video "4.0") 2 0%Z).1
  = Ok ["2.0000"; "4.0000"] ∧
  let decoded :=
    length (filter (λ ts, @decodes reference_libs (sample_video "4.0") ts)
                   ["2.0000"; "4.0000"]) in
  ((decoded < 2)%nat →
   ∃ e, (@main reference_libs (sample_video "4.0") 2 0%Z).1 = Raise e ∧
        classify e = InsufficientSamplesError) ∧
  ((2 ≤ decoded)%nat →
   ∀ e, (@main reference_libs (sample_video "4.0") 2 0%Z).1 = Raise e →
        classify e ≠ InsufficientSamplesError).
Proof.
  split; [by vm_compute|].
  apply (@main_insufficient_samples reference_libs (sample_video "4.0") 2 0%Z).
  by vm_compute.
Defined.

(** Two samples requested and decoded: the logo, present on both
    backgrounds, is found. *)
Example main_logo :
  (@main reference_libs (sample_video "2.0") 2 0%Z).1 = Ok logo_mask.
Proof. by vm_compute. Qed.

(** One decoded sample out of two requested: the count returned by
    [extract_frames] is 2, and the error comes from line 99. *)
Example main_one_decoded :
  (@main reference_libs (sample_video "4.0") 2 0%Z).1
  = Raise (ValueError_too_few_images 1).
Proof. by vm_compute. Qed.

(** Four requested samples, one of them not a number and one past the end
    of the video: three are counted and two images are written. *)
Example extract_frames_attempts :
  (@extract_frames reference_libs (sample_video "4.0")
     ["1"; "x"; "2"; "9"] ∅).1 = 3%nat ∧
  size (@extract_frames reference_libs (sample_video "4.0")
          ["1"; "x"; "2"; "9"] ∅).2 = 2%nat.
Proof. by vm_compute. Qed.

(** C6 on a directory with a 4 x 4 and a 2 x 3 frame. *)
Lemma extract_watermark_mask_dimension_mismatch_witness :
  frame_logo 10 ∈ read_frames mixed_directory ∧
  frame_small ∈ read_frames mixed_directory ∧
  (height (frame_logo 10) ≠ height frame_small ∨
   width (frame_logo 10) ≠ width frame_small) ∧
  @extract_watermark_mask reference_libs mixed_directory
  = Raise ValueError_inhomogeneous_shape ∧
  classify ValueError_inhomogeneous_shape = DimensionMismatchError.
Proof.
  assert (frame_logo 10 ∈ read_frames mixed_directory) as Hf.
  { apply elem_of_read_frames. by exists "output_0.png". }
  assert (frame_small ∈ read_frames mixed_directory) as Hg.
  { apply elem_of_read_frames. by exists "output_1.png". }
  assert (height (frame_logo 10) ≠ height frame_small ∨
          width (frame_logo 10) ≠ width frame_small) as Hdiff
    by (left; by vm_compute).
  do 3 (split; [done|]).
  by apply (@extract_watermark_mask_dimension_mismatch reference_libs
              mixed_directory (frame_logo 10) frame_small).
Defined.

(** C7 on a video without keyframes that lasts three seconds. *)
Lemma extract_keyframes_without_keyframes_witness :
  (ffprobe_keyframes (sample_video "3.0") = None ∨
   ∃ stdout, ffprobe_keyframes (sample_video "3.0") = Some stdout ∧
             parse_keyframes stdout = []) ∧
  (decimal_float (duration_text (sample_video "3.0")) = None →
   ∃ e, (@extract_keyframes reference_libs (sample_video "3.0") 4 0%Z).1
        = Raise e ∧ classify e = InputError) ∧
  (∀ duration,
   decimal_float (duration_text (sample_video "3.0")) = Some duration →
   4%Z ≠ 0%Z →
   (@extract_keyframes reference_libs (sample_video "3.0") 4 0%Z).1
   = Ok (@uniform_grid reference_libs duration 4)).
Proof.
  assert (ffprobe_keyframes (sample_video "3.0") = None ∨
          ∃ stdout, ffprobe_keyframes (sample_video "3.0") = Some stdout ∧
                    parse_keyframes stdout = []) as Hnone by by left.
  split; [done|].
  by apply (@extract_keyframes_without_keyframes reference_libs
              (sample_video "3.0") 4 0%Z).
Defined.

Example extract_keyframes_uniform_grid :
  (@extract_keyframes reference_libs (sample_video "3.0") 4 0%Z).1
  = Ok ["0.7500"; "1.5000"; "2.2500"; "3.0000"].
Proof. by vm_compute. Qed.

Example extract_keyframes_unknown_duration :
  (@extract_keyframes reference_libs (sample_video "N/A") 4 0%Z).1
  = Raise (ValueError_float "N/A").
Proof. by vm_compute. Qed.

(** C7 as stated fails on a video without keyframes whose duration is
    zero: the duration is known and not positive, and the selection
    succeeds, with four timestamps at zero. *)
Lemma extract_keyframes_zero_duration :
  ffprobe_keyframes (sample_video "0.000000") = None ∧
  (∃ duration,
     decimal_float (duration_text (sample_video "0.000000")) = Some duration ∧
     duration ≤ 0) ∧
  (@extract_keyframes reference_libs (sample_video "0.000000") 4 0%Z).1
  = Ok ["0.0000"; "0.0000"; "0.0000"; "0.0000"].
Proof.
  split; [done|]. split; [|by vm_compute].
  eexists. split; [by vm_compute|]. by vm_compute.
Qed.

(** A negative duration is accepted in the same way. *)
Example extract_keyframes_negative_duration :
  (@extract_keyframes reference_libs (sample_video "-2") 4 0%Z).1
  = Ok ["-0.5000"; "-1.0000"; "-1.5000"; "-2.0000"].
Proof. by vm_compute. Qed.

(** With keyframes, the list is deduplicated, sorted, shuffled from the
    seed and cut, whatever the generator state before the call. *)
Example extract_keyframes_keyframes :
  (@extract_keyframes reference_libs keyframe_video 2 0%Z).1
  = Ok ["1.000000"; "2.000000"] ∧
  (@extract_keyframes reference_libs keyframe_video 2 77%Z).1
  = Ok ["1.000000"; "2.000000"].
Proof. by vm_compute. Qed.

(** C8 on a directory with the logo on two backgrounds. *)
Lemma extract_watermark_mask_shape_values_witness :
  Forall decoded_image (read_frames logo_directory) ∧
  @extract_watermark_mask reference_libs logo_directory = Ok logo_mask ∧
  (∀ f, f ∈ read_frames logo_directory →
        field_shape (height f) (width f) logo_mask) ∧
  (∀ r v, r ∈ logo_mask → v ∈ r → v = 0%Z ∨ v = 255%Z).
Proof.
  assert (Forall decoded_image (read_frames logo_directory)) as Himg.
  { assert (read_frames logo_directory = [frame_logo 10; frame_logo 30])
      as -> by by vm_compute.
    repeat constructor. }
  assert (@extract_watermark_mask reference_libs logo_directory
          = Ok logo_mask) as Hm by by vm_compute.
  do 2 (split; [done|]).
  by apply (@extract_watermark_mask_shape_values reference_libs
              logo_directory logo_mask binomial_filter_shape).
Defined.


(** * Further properties of the code *)

(** ** [normalize]: range, end points, idempotence *)

Lemma np_min_unique (x : field) (m : Qc) :
  m ∈ concat x → (∀ e, e ∈ concat x → m ≤ e) → np_min x = Ok m.
Proof.
  intros Hin Hle. destruct (np_min_max_defined x) as (lo & _ & Hlo & _).
  { intros Hnil. rewrite Hnil in Hin. by apply elem_of_nil in Hin. }
  destruct (np_min_spec x lo Hlo) as [Hloin Hlole].
  rewrite Hlo. f_equal. apply (anti_symm (≤)); auto.
Qed.

Lemma np_max_unique (x : field) (m : Qc) :
  m ∈ concat x → (∀ e, e ∈ concat x → e ≤ m) → np_max x = Ok m.
Proof.
  intros Hin Hle. destruct (np_min_max_defined x) as (_ & hi & _ & Hhi).
  { intros Hnil. rewrite Hnil in Hin. by apply elem_of_nil in Hin. }
  destruct (np_max_spec x hi Hhi) as [Hhiin Hhile].
  rewrite Hhi. f_equal. apply (anti_symm (≤)); auto.
Qed.

Lemma elem_of_concat_map (g : Qc → Qc) (x : field) (e : Qc) :
  e ∈ concat (map (map g) x) ↔ ∃ e', e = g e' ∧ e' ∈ concat x.
Proof.
  rewrite concat_map_map, list_elem_of_In, in_map_iff.
  split; intros (e' & ? & ?); exists e'; by rewrite ?list_elem_of_In in *.
Qed.

(** The result of [normalize] on an array whose entries are not all equal:
    the rescaling of every entry by the minimum and the range. *)
Lemma normalize_not_uniform (x : field) :
  ¬ all_equal x →
  ∃ lo hi, np_min x = Ok lo ∧ np_max x = Ok hi ∧ hi - lo ≠ 0 ∧
    normalize x = Ok (map (map (λ e, (e - lo) / (hi - lo))) x).
Proof.
  intros Hne.
  destruct (np_min_max_defined x) as (lo & hi & Hlo & Hhi).
  { intros Hnil. apply Hne. intros u v Hu. rewrite Hnil in Hu.
    by apply elem_of_nil in Hu. }
  exists lo, hi. do 2 (split; [done|]).
  pose proof (all_equal_min_max x lo hi Hlo Hhi) as Heq.
  assert (hi - lo ≠ 0) as Hrange by tauto. split; [done|].
  unfold normalize. rewrite Hlo, Hhi. simpl. by rewrite bool_decide_false.
Qed.

(** A non-empty array of equal entries is sent to zeros, on which
    [normalize] returns zeros again. *)
Lemma normalize_uniform_zeros (x : field) :
  concat x ≠ [] → all_equal x →
  normalize x = Ok (zeros_like x) ∧
  normalize (zeros_like x) = Ok (zeros_like x).
Proof.
  intros Hne Hall.
  assert (concat (zeros_like x) ≠ []) as Hne'.
  { unfold zeros_like. rewrite concat_map_map. by destruct (concat x). }
  assert (all_equal (zeros_like x)) as Hall'.
  { intros u v (? & -> & _)%elem_of_concat_map (? & -> & _)%elem_of_concat_map.
    done. }
  assert (∀ y, concat y ≠ [] → all_equal y → normalize y = Ok (zeros_like y))
    as Hnorm.
  { intros y (lo & hi & Hlo & Hhi)%np_min_max_defined Hy.
    unfold normalize. rewrite Hlo, Hhi. simpl.
    rewrite bool_decide_true; [done|].
    by apply (proj1 (all_equal_min_max y lo hi Hlo Hhi)). }
  split; [by apply Hnorm|]. rewrite (Hnorm _ Hne' Hall'). f_equal.
  unfold zeros_like. rewrite map_map. apply map_ext. intros r.
  by rewrite map_map.
Qed.

Lemma Qc_div_same (a : Qc) : a ≠ 0 → a / a = 1.
Proof. intros Ha. by field. Qed.

(** On an array whose entries are not all equal, [normalize] returns an
    array whose entries all lie in [0, 1], whose minimum is exactly 0 and
    whose maximum is exactly 1. *)
Theorem normalize_unit_range (x : field) :
  ¬ all_equal x →
  ∃ n, normalize x = Ok n ∧
    (∀ e, e ∈ concat n → 0 ≤ e ≤ 1) ∧
    np_min n = Ok 0 ∧ np_max n = Ok 1.
Proof.
  intros (lo & hi & Hlo & Hhi & Hrange & Hn)%normalize_not_uniform.
  destruct (np_min_spec x lo Hlo) as [Hloin Hlole].
  destruct (np_max_spec x hi Hhi) as [Hhiin Hhile].
  eexists. split; [done|].
  assert (∀ e, e ∈ concat (map (map (λ e, (e - lo) / (hi - lo))) x) →
            0 ≤ e ≤ 1) as Hbounds.
  { intros e (e' & -> & He')%elem_of_concat_map. apply Qc_div_range; auto. }
  split; [done|]. split.
  - apply np_min_unique; [|by intros e [? _]%Hbounds].
    apply elem_of_concat_map. exists lo. split; [|done].
    replace (lo - lo) with 0 by ring. by rewrite Qc_div_0_l.
  - apply np_max_unique; [|by intros e [_ ?]%Hbounds].
    apply elem_of_concat_map. exists hi. split; [|done].
    by rewrite Qc_div_same.
Qed.

Lemma normalize_unit_range_elems (x : field) :
  ¬ all_equal x →
  ∃ n, normalize x = Ok n ∧ 0 ∈ concat n ∧ 1 ∈ concat n.
Proof.
  intros (lo & hi & Hlo & Hhi & Hrange & Hn)%normalize_not_uniform.
  destruct (np_min_spec x lo Hlo) as [Hloin _].
  destruct (np_max_spec x hi Hhi) as [Hhiin _].
  eexists. split; [done|]. split.
  - apply elem_of_concat_map. exists lo. split; [|done].
    replace (lo - lo) with 0 by ring. by rewrite Qc_div_0_l.
  - apply elem_of_concat_map. exists hi. split; [|done].
    by rewrite Qc_div_same.
Qed.

(** Normalising twice is normalising once. *)
Theorem normalize_idempotent (x : field) :
  concat x ≠ [] →
  ∃ n, normalize x = Ok n ∧ normalize n = Ok n.
Proof.
  intros Hne.
  assert (all_equal x ∨ ¬ all_equal x) as [Hall|Hnot].
  { destruct (np_min_max_defined x Hne) as (lo & hi & Hlo & Hhi).
    pose proof (all_equal_min_max x lo hi Hlo Hhi).
    destruct (decide (hi - lo = 0)); tauto. }
  - destruct (normalize_uniform_zeros x Hne Hall) as [Hn Hz].
    exists (zeros_like x). split; [done|]. by rewrite Hz.
  - destruct (normalize_not_uniform x Hnot)
      as (lo & hi & Hlo & Hhi & Hrange & Hn).
    destruct (np_min_spec x lo Hlo) as [Hloin Hlole].
    destruct (np_max_spec x hi Hhi) as [Hhiin Hhile].
    set (n := map (map (λ e, (e - lo) / (hi - lo))) x) in *.
    assert (∀ e, e ∈ concat n → 0 ≤ e ≤ 1) as Hbounds.
    { intros e (e' & -> & He')%elem_of_concat_map. apply Qc_div_range; auto. }
    assert (np_min n = Ok 0) as Hmin.
    { apply np_min_unique; [|by intros e [? _]%Hbounds].
      apply elem_of_concat_map. exists lo. split; [|done].
      replace (lo - lo) with 0 by ring. by rewrite Qc_div_0_l. }
    assert (np_max n = Ok 1) as Hmax.
    { apply np_max_unique; [|by intros e [_ ?]%Hbounds].
      apply elem_of_concat_map. exists hi. split; [|done].
      by rewrite Qc_div_same. }
    exists n. split; [done|]. unfold normalize. rewrite Hmin, Hmax.
    cbn [rbind]. rewrite bool_decide_false by done. f_equal.
    rewrite <-(map_id n) at 2. apply map_ext. intros r.
    rewrite <-(map_id r) at 2. apply map_ext. intros e. by field.
Qed.

(** ** The mask builder: what a mask can look like *)

Lemma uniform_all_equal (v : Qc) (x : field) : uniform v x → all_equal x.
Proof.
  intros Hx.
  assert (∀ e, e ∈ concat x → e = v) as Hall.
  { intros e (r & Hr & He)%list_elem_of_In%in_concat.
    unfold uniform in Hx. rewrite Forall_forall in Hx.
    specialize (Hx r (proj2 (list_elem_of_In _ _) Hr)).
    rewrite Forall_forall in Hx. symmetry.
    by apply Hx, list_elem_of_In. }
  intros a b Ha Hb. by rewrite (Hall a), (Hall b).
Qed.

Lemma field_shape_nonempty {X} (x : list (list X)) h w :
  field_shape h w x → (0 < h)%nat → (0 < w)%nat → concat x ≠ [].
Proof.
  intros [Hx Hxr] Hh Hw. destruct x as [|r x]; [simpl in Hx; lia|].
  apply Forall_inv in Hxr. destruct r; [simpl in Hxr; lia|done].
Qed.

Lemma concat_binarize (s : field) :
  concat (binarize s)
  = map (λ v, if bool_decide (Q2Qc (2 # 10) < v) then 255%Z else 0%Z)
        (concat s).
Proof. apply concat_map_map. Qed.

Lemma mask_of_gradients_content_aux `{Libs} (mean_dx mean_dy : field)
    (h w : nat) :
  shape_preserving gaussian_filter →
  field_shape h w mean_dx → field_shape h w mean_dy →
  (0 < h)%nat → (0 < w)%nat →
  ∃ m, mask_of_gradients mean_dx mean_dy = Ok m ∧
    0%Z ∈ concat m ∧
    (all_equal (gaussian_filter (salient_field mean_dx mean_dy) (Qc_of_Z 3)) →
     ∀ v, v ∈ concat m → v = 0%Z) ∧
    (¬ all_equal (gaussian_filter (salient_field mean_dx mean_dy) (Qc_of_Z 3)) →
     255%Z ∈ concat m).
Proof.
  intros Hfilter Hx Hy Hh Hw.
  destruct (salient_field_spec mean_dx mean_dy h w Hx Hy) as [Hss _].
  pose proof (Hfilter _ (Qc_of_Z 3) h w Hss) as Hsm.
  set (smooth := gaussian_filter _ _) in *.
  pose proof (field_shape_nonempty smooth h w Hsm Hh Hw) as Hne.
  unfold mask_of_gradients. fold smooth.
  assert (all_equal smooth ∨ ¬ all_equal smooth) as [Hall|Hnot].
  { destruct (np_min_max_defined smooth Hne) as (lo & hi & Hlo & Hhi).
    pose proof (all_equal_min_max smooth lo hi Hlo Hhi).
    destruct (decide (hi - lo = 0)); tauto. }
  - destruct (normalize_uniform_zeros smooth Hne Hall) as [-> _].
    eexists. split; [done|].
    assert (∀ v, v ∈ concat (binarize (zeros_like smooth)) → v = 0%Z) as Hz.
    { intros v. rewrite concat_binarize. unfold zeros_like.
      rewrite concat_map_map, map_map.
      by intros (e & <- & _)%list_elem_of_In%in_map_iff. }
    split; [|split; [done|tauto]].
    destruct (concat (binarize (zeros_like smooth))) as [|v l] eqn:Hc.
    + apply (f_equal length) in Hc. rewrite concat_binarize in Hc.
      unfold zeros_like in Hc. rewrite concat_map_map, !length_map in Hc.
      destruct (concat smooth); [done|discriminate].
    + rewrite <-(Hz v) by by left. by left.
  - destruct (normalize_unit_range_elems smooth Hnot) as (n & -> & H0 & H1).
    eexists. split; [done|]. cbn [rbind]. rewrite concat_binarize.
    split; [|split; [tauto|intros _]].
    + apply list_elem_of_In, in_map_iff. exists 0.
      split; [done|by apply list_elem_of_In].
    + apply list_elem_of_In, in_map_iff. exists 1.
      split; [done|by apply list_elem_of_In].
Qed.


(** Whatever the gradient statistics, the mask has a pixel at 0.  When the
    smoothed salient field is uniform the whole mask is 0; when it is not,
    the mask also has a pixel at 255: the brightest point of the smoothed
    field is always marked, however faint it is. *)
Theorem mask_of_gradients_content `{Libs} (mean_dx mean_dy : field)
    (h w : nat) :
  shape_preserving gaussian_filter →
  field_shape h w mean_dx → field_shape h w mean_dy →
  (0 < h)%nat → (0 < w)%nat →
  ∃ m, mask_of_gradients mean_dx mean_dy = Ok m ∧
    0%Z ∈ concat m ∧
    (all_equal (gaussian_filter (salient_field mean_dx mean_dy) (Qc_of_Z 3)) →
     ∀ v, v ∈ concat m → v = 0%Z) ∧
    (¬ all_equal (gaussian_filter (salient_field mean_dx mean_dy) (Qc_of_Z 3)) →
     255%Z ∈ concat m).
Proof. apply mask_of_gradients_content_aux. Qed.

Lemma uniform_of_at2 (x : field) (v : Qc) h w :
  field_shape h w x →
  (∀ i j, (i < h)%nat → (j < w)%nat → at2 x i j = v) → uniform v x.
Proof.
  intros [Hx Hxr] Hat. unfold uniform. apply Forall_lookup. intros i r Hi.
  apply Forall_lookup. intros j e Hj.
  assert (i < h)%nat as Hi' by (apply lookup_lt_Some in Hi; lia).
  assert (j < w)%nat as Hj'.
  { apply lookup_lt_Some in Hj. rewrite Forall_lookup in Hxr.
    by rewrite <-(Hxr i r Hi). }
  specialize (Hat i j Hi' Hj'). unfold at2, at1 in Hat.
  rewrite (nth_lookup x), Hi in Hat. simpl in Hat.
  rewrite nth_lookup, Hj in Hat. by simpl in Hat.
Qed.

(** When no pixel is salient, and also when every pixel is salient, the
    mask is 0 everywhere: a smoothing that keeps constant fields constant
    gives a uniform field, which [normalize] sends to zeros. *)
Theorem mask_of_gradients_uniform_salience `{Libs} (mean_dx mean_dy : field)
    (h w : nat) :
  shape_preserving gaussian_filter → uniform_preserving gaussian_filter →
  field_shape h w mean_dx → field_shape h w mean_dy →
  (0 < h)%nat → (0 < w)%nat →
  (∀ i j, (i < h)%nat → (j < w)%nat →
     at2 mean_dx i j ≤ threshold ∧ at2 mean_dy i j ≤ threshold) ∨
  (∀ i j, (i < h)%nat → (j < w)%nat →
     threshold < at2 mean_dx i j ∨ threshold < at2 mean_dy i j) →
  ∃ m, mask_of_gradients mean_dx mean_dy = Ok m ∧ field_shape h w m ∧
       ∀ v, v ∈ concat m → v = 0%Z.
Proof.
  intros Hfilter Hunif Hx Hy Hh Hw Hsal.
  destruct (salient_field_spec mean_dx mean_dy h w Hx Hy) as [Hss Hsat].
  assert (∃ v, uniform v (salient_field mean_dx mean_dy)) as [v Hv].
  { destruct Hsal as [Hnone|Hall].
    - exists 0. apply (uniform_of_at2 _ _ h w Hss). intros i j Hi Hj.
      rewrite Hsat. destruct (Hnone i j Hi Hj) as [H1 H2].
      rewrite decide_False; [done|].
      intros [?%Qclt_not_le|?%Qclt_not_le]; done.
    - exists 1. apply (uniform_of_at2 _ _ h w Hss). intros i j Hi Hj.
      rewrite Hsat. by rewrite decide_True by auto. }
  pose proof (uniform_all_equal v _ (Hunif _ (Qc_of_Z 3) v Hv)) as Hall.
  destruct (mask_of_gradients_ok mean_dx mean_dy h w)
    as (m & Hm & Hms); [done..|].
  destruct (mask_of_gradients_content_aux mean_dx mean_dy h w)
    as (m' & Hm' & _ & Hzero & _); [done..|].
  exists m. split; [done|]. split; [done|].
  rewrite Hm in Hm'. injection Hm' as <-. auto.
Qed.

(** ** When [extract_watermark_mask] succeeds *)




(** ** The accumulated statistic: identical frames, brightness offsets *)

Lemma Qc_of_nat_S (n : nat) : Qc_of_nat (S n) = Qc_of_nat n + 1.
Proof.
  unfold Qc_of_nat. by rewrite Nat2Z.inj_succ, <-Z.add_1_r, Z2Qc_inj_add.
Qed.







Lemma sample_brighten (k : Z) (f : frame) h w c i j ch :
  frame_shape h w c f → (i < h)%nat → (j < w)%nat → (ch < c)%nat →
  sample (brighten k f) i j ch = Qc_of_Z k + sample f i j ch.
Proof.
  intros Hf Hi Hj Hch. unfold sample, brighten.
  pose proof (frame_shape_nth f h w c i Hf Hi) as Hrow.
  pose proof (field_shape_nth _ w c j Hrow Hj) as Hpx.
  destruct Hf as [Hf _]. destruct Hrow as [Hrow _].
  rewrite (nth_map_lt _ f i [] []) by lia.
  rewrite (nth_map_lt _ _ j [] []) by lia.
  rewrite (nth_map_lt _ _ ch 0%Z 0%Z) by lia.
  by rewrite Z2Qc_inj_add.
Qed.

Lemma derivative_offset (n : nat) (g g' : nat → Qc) (k : Qc) (i : nat) :
  (2 ≤ n)%nat → (i < n)%nat →
  (∀ r, (r < n)%nat → g' r = k + g r) →
  derivative n g' i = derivative n g i.
Proof.
  intros Hn Hi Hg. unfold derivative.
  repeat case_decide; rewrite !Hg by lia; try ring.
  unfold Qcdiv. ring.
Qed.

Lemma frame_shape_brighten (k : Z) (f : frame) h w c :
  frame_shape h w c f → frame_shape h w c (brighten k f).
Proof. apply frame_shape_map. Qed.

Lemma brighten_stack_shape (offsets : list Z) (images : list frame) h w c :
  Forall (frame_shape h w c) images →
  Forall (frame_shape h w c) (zip_with brighten offsets images).
Proof.
  intros Himg. revert offsets.
  induction Himg as [|f images Hf _ IH]; intros [|k offsets]; simpl;
    try constructor; [by apply frame_shape_brighten|apply IH].
Qed.

Lemma brighten_stack_map {Y} (F F' : frame → Y) (offsets : list Z)
    (images : list frame) h w c :
  Forall (frame_shape h w c) images → length offsets = length images →
  (∀ k f, frame_shape h w c f → F' (brighten k f) = F f) →
  map F' (zip_with brighten offsets images) = map F images.
Proof.
  intros Himg Hlen HF. revert offsets Hlen.
  induction Himg as [|f images Hf _ IH]; intros [|k offsets] Hlen;
    simplify_eq/=; [done|].
  f_equal; [by apply HF|by apply IH].
Qed.

Lemma mean_gradients_brighten (images : list frame)
    (offsets : list Z) (h w c : nat) :
  Forall (frame_shape h w c) images → length offsets = length images →
  mean_gradients (zip_with brighten offsets images) = mean_gradients images.
Proof.
  intros Himg Hlen.
  pose proof (brighten_stack_shape offsets images h w c Himg) as Himg'.
  assert (length (zip_with brighten offsets images) = length images)
    as Hlen' by (rewrite length_zip_with; lia).
  destruct (decide (images = [])) as [->|Hne].
  { by destruct offsets. }
  assert (zip_with brighten offsets images ≠ []) as Hne'.
  { intros Heq. rewrite Heq in Hlen'. by destruct images. }
  destruct (decide (h < 2 ∨ w < 2)%nat) as [Hsmall|Hbig].
  { by rewrite !(mean_gradients_too_small _ h w c). }
  destruct (mean_gradients_spec images h w c)
    as (mean_dx & mean_dy & -> & Hxs & Hys & Hat); [done|done|lia|lia|].
  destruct (mean_gradients_spec (zip_with brighten offsets images) h w c)
    as (mean_dx' & mean_dy' & -> & Hxs' & Hys' & Hat'); [done|done|lia|lia|].
  do 2 f_equal.
  - apply (field_ext _ _ h w); [done..|]. intros i j Hi Hj.
    destruct (Hat i j Hi Hj) as [-> _], (Hat' i j Hi Hj) as [-> _].
    do 2 f_equal. apply (brighten_stack_map _ _ _ _ h w c); [done..|].
    intros k f Hf. unfold frame_dx. f_equal.
    apply map_ext_in. intros ch [_ Hch]%list_elem_of_In%elem_of_seq.
    apply (derivative_offset h _ _ (Qc_of_Z k)); [lia|done|].
    intros r Hr. by apply (sample_brighten k f h w c).
  - apply (field_ext _ _ h w); [done..|]. intros i j Hi Hj.
    destruct (Hat i j Hi Hj) as [_ ->], (Hat' i j Hi Hj) as [_ ->].
    do 2 f_equal. apply (brighten_stack_map _ _ _ _ h w c); [done..|].
    intros k f Hf. unfold frame_dy. f_equal.
    apply map_ext_in. intros ch [_ Hch]%list_elem_of_In%elem_of_seq.
    apply (derivative_offset w _ _ (Qc_of_Z k)); [lia|done|].
    intros r Hr. by apply (sample_brighten k f h w c).
Qed.

(** Adding a constant to every sample of a frame, a different constant for
    each frame, changes neither the accumulated statistic nor the result of
    the mask computation. *)
Theorem watermark_mask_brightness_offsets `{Libs} (buff : list frame)
    (offsets : list Z) (h w c : nat) :
  Forall (frame_shape h w c) buff → length offsets = length buff →
  mean_gradients (zip_with brighten offsets buff) = mean_gradients buff ∧
  watermark_mask (zip_with brighten offsets buff) = watermark_mask buff.
Proof.
  intros Hbuff Hlen.
  pose proof (mean_gradients_brighten buff offsets h w c Hbuff Hlen) as Hmg.
  split; [done|]. unfold watermark_mask.
  rewrite length_zip_with, Hlen, Nat.min_id.
  case_bool_decide; [done|].
  rewrite (np_array_same_shape buff h w c Hbuff).
  rewrite (np_array_same_shape _ h w c
             (brighten_stack_shape offsets buff h w c Hbuff)).
  cbn [rbind]. by rewrite Hmg.
Qed.

(** ** The accumulated statistic of 8-bit frames *)

Ltac qc_lra :=
  unfold Qcle, Qclt, Qcminus, Qcplus, Qcopp, Qcmult in *; simpl in *;
  rewrite ?Qred_correct in *; lra.

Lemma Qc_div_bound (s n B : Qc) :
  0 < n → - (n * B) ≤ s → s ≤ n * B → - B ≤ s / n ∧ s / n ≤ B.
Proof.
  intros Hn Hlo Hhi.
  assert (n ≠ 0) as Hn0 by (intros ->; by apply (irreflexivity (<) 0)).
  split.
  - apply (Qcmult_le_mono_pos_r _ _ n Hn).
    replace (s / n * n) with s by (by field).
    by replace (- B * n) with (- (n * B)) by ring.
  - apply (Qcmult_le_mono_pos_r _ _ n Hn).
    replace (s / n * n) with s by (by field). by rewrite (Qcmult_comm B).
Qed.

Lemma foldl_Qcplus_bound (l : list Qc) (B v : Qc) :
  Forall (λ e, - B ≤ e ∧ e ≤ B) l →
  v - Qc_of_nat (length l) * B ≤ foldl Qcplus v l ∧
  foldl Qcplus v l ≤ v + Qc_of_nat (length l) * B.
Proof.
  intros Hl. revert v. induction Hl as [|e l [He1 He2] _ IH]; intros v.
  - simpl. unfold Qc_of_nat. change (Z.of_nat 0) with 0%Z.
    rewrite Z2Qc_inj_0. split; qc_lra.
  - cbn [foldl length]. destruct (IH (v + e)) as [IH1 IH2].
    rewrite Qc_of_nat_S. split.
    + etrans; [|apply IH1].
      replace (v - (Qc_of_nat (length l) + 1) * B)
        with (v - B - Qc_of_nat (length l) * B) by ring.
      apply Qcplus_le_mono_r. qc_lra.
    + etrans; [apply IH2|].
      replace (v + (Qc_of_nat (length l) + 1) * B)
        with (v + B + Qc_of_nat (length l) * B) by ring.
      apply Qcplus_le_mono_r. qc_lra.
Qed.

Lemma Qc_of_nat_gt_0 (n : nat) : (0 < n)%nat → 0 < Qc_of_nat n.
Proof.
  intros Hn. unfold Qc_of_nat. rewrite <-Z2Qc_inj_0.
  apply (proj1 (Z2Qc_inj_lt _ _)). lia.
Qed.

Lemma Qc_mean_bound (l : list Qc) (B : Qc) :
  0 ≤ B → Forall (λ e, - B ≤ e ∧ e ≤ B) l →
  - B ≤ Qc_mean l ∧ Qc_mean l ≤ B.
Proof.
  intros HB Hl. unfold Qc_mean, Qc_sum. destruct l as [|e l].
  { simpl. rewrite Qc_div_0_l. split; qc_lra. }
  destruct (foldl_Qcplus_bound (e :: l) B 0 Hl) as [H1 H2].
  apply Qc_div_bound; [apply Qc_of_nat_gt_0; simpl; lia|..].
  - replace (- (Qc_of_nat (length (e :: l)) * B))
      with (0 - Qc_of_nat (length (e :: l)) * B) by ring. done.
  - replace (Qc_of_nat (length (e :: l)) * B)
      with (0 + Qc_of_nat (length (e :: l)) * B) by ring. done.
Qed.

Lemma nth_Forall_default {X} (P : X → Prop) (l : list X) (d : X) (i : nat) :
  Forall P l → P d → P (nth i l d).
Proof.
  intros Hl Hd. destruct (nth_in_or_default i l d) as [Hin| ->]; [|done].
  rewrite Forall_forall in Hl. by apply Hl, list_elem_of_In.
Qed.

Lemma sample_eight_bit (f : frame) (i j ch : nat) :
  eight_bit f → 0 ≤ sample f i j ch ∧ sample f i j ch ≤ Qc_of_Z 255.
Proof.
  intros Hf. unfold sample.
  assert (0 ≤ nth ch (nth j (nth i f []) []) 0 ≤ 255)%Z as [H0 H255].
  { apply (nth_Forall_default (λ s, 0 ≤ s ≤ 255)%Z); [|lia].
    apply (nth_Forall_default (Forall (λ s, 0 ≤ s ≤ 255)%Z)); [|done].
    by apply (nth_Forall_default
                (Forall (Forall (λ s, 0 ≤ s ≤ 255)%Z))). }
  rewrite <-Z2Qc_inj_0. split; by apply (proj1 (Z2Qc_inj_le _ _)).
Qed.

Lemma derivative_bound (n : nat) (g : nat → Qc) (i : nat) (B : Qc) :
  (∀ r, 0 ≤ g r ∧ g r ≤ B) →
  - B ≤ derivative n g i ∧ derivative n g i ≤ B.
Proof.
  intros Hg. unfold derivative.
  assert (0 ≤ B) as HB by (destruct (Hg 0%nat); by etrans).
  repeat case_decide.
  - destruct (Hg 0%nat), (Hg 1%nat). split; qc_lra.
  - destruct (Hg (n - 1)%nat), (Hg (n - 2)%nat). split; qc_lra.
  - destruct (Hg (i + 1)%nat), (Hg (i - 1)%nat).
    apply Qc_div_bound; [done|qc_lra..].
Qed.

Lemma channel_mean_bound (c : nat) (F : nat → Qc) (B : Qc) :
  0 ≤ B → (∀ ch, - B ≤ F ch ∧ F ch ≤ B) →
  - B ≤ Qc_mean (map F (seq 0 c)) ∧ Qc_mean (map F (seq 0 c)) ≤ B.
Proof.
  intros HB HF. apply Qc_mean_bound; [done|].
  apply Forall_map, Forall_forall. intros ch _. apply HF.
Qed.

Lemma Qc_255_nonneg : 0 ≤ Qc_of_Z 255.
Proof. rewrite <-Z2Qc_inj_0. by apply (proj1 (Z2Qc_inj_le _ _)). Qed.

(** For 8-bit frames, every value of the accumulated statistic lies
    between 0 and 255: the threshold of line 110 is on that scale. *)
Theorem mean_gradients_eight_bit_range (images : list frame) (h w c : nat) :
  images ≠ [] → Forall (frame_shape h w c) images →
  Forall eight_bit images → (2 ≤ h)%nat → (2 ≤ w)%nat →
  ∃ mean_dx mean_dy,
    mean_gradients images = Ok (mean_dx, mean_dy) ∧
    ∀ i j, (i < h)%nat → (j < w)%nat →
      (0 ≤ at2 mean_dx i j ∧ at2 mean_dx i j ≤ Qc_of_Z 255) ∧
      (0 ≤ at2 mean_dy i j ∧ at2 mean_dy i j ≤ Qc_of_Z 255).
Proof.
  intros Hne Himg Hbits Hh Hw.
  destruct (mean_gradients_spec images h w c)
    as (mean_dx & mean_dy & Hok & _ & _ & Hat); [done..|].
  exists mean_dx, mean_dy. split; [done|]. intros i j Hi Hj.
  destruct (Hat i j Hi Hj) as [-> ->].
  assert (∀ F : frame → Qc,
            (∀ f, eight_bit f → - Qc_of_Z 255 ≤ F f ∧ F f ≤ Qc_of_Z 255) →
            0 ≤ Qcabs.Qcabs (Qc_mean (map F images)) ∧
            Qcabs.Qcabs (Qc_mean (map F images)) ≤ Qc_of_Z 255) as Hstat.
  { intros F HF. split; [apply Qcabs.Qcabs_nonneg|].
    apply Qcabs.Qcabs_Qcle_condition.
    apply Qc_mean_bound; [apply Qc_255_nonneg|].
    apply Forall_map. eapply Forall_impl; [exact Hbits|]. intros f Hf.
    by apply HF. }
  split; apply Hstat; intros f Hf.
  - apply channel_mean_bound; [apply Qc_255_nonneg|]. intros ch.
    apply derivative_bound. intros r. by apply sample_eight_bit.
  - apply channel_mean_bound; [apply Qc_255_nonneg|]. intros ch.
    apply derivative_bound. intros r. by apply sample_eight_bit.
Qed.

(** ** Timestamp selection: what is selected *)

Lemma probed_keyframes_some (v : video) (stdout : string) :
  ffprobe_keyframes v = Some stdout → parse_keyframes stdout ≠ [] →
  probed_keyframes v = Some (sorted_set (parse_keyframes stdout)).
Proof.
  intros Hprobe Hne. unfold probed_keyframes. rewrite Hprobe.
  destruct (sorted_set (parse_keyframes stdout)) eqn:Hs; [|done].
  by apply sorted_set_nil_inv in Hs.
Qed.

Lemma sorted_set_Permutation (l : list string) :
  sorted_set l ≡ₚ remove_dups l.
Proof. apply merge_sort_Permutation. Qed.

Lemma slice_to_sublist {X} (m : Z) (l : list X) : slice_to m l `sublist_of` l.
Proof. unfold slice_to. case_bool_decide; apply sublist_take. Qed.

Lemma elem_of_slice_to {X} (m : Z) (l : list X) (x : X) :
  x ∈ slice_to m l → x ∈ l.
Proof.
  unfold slice_to. case_bool_decide;
    intros (i & Hi & _)%elem_of_take; by eapply list_elem_of_lookup_2.
Qed.

Lemma slice_to_length {X} (m : Z) (l : list X) :
  length (slice_to m l)
  = if bool_decide (0 ≤ m)%Z then Nat.min (Z.to_nat m) (length l)
    else (length l - Z.to_nat (- m))%nat.
Proof.
  unfold slice_to. case_bool_decide; rewrite length_take; lia.
Qed.

(** With keyframes, and a shuffle that rearranges its argument, the
    timestamps returned are keyframe timestamps of the probe, without
    repetition; there are [max_frames] of them, or all the distinct ones
    when there are fewer, and a negative [max_frames] removes that many
    from the end of the shuffled list instead of failing. *)
Theorem extract_keyframes_selects_keyframes `{Libs} (v : video)
    (max_frames : Z) (g : rng_state) (stdout : string) :
  shuffle_permutes →
  ffprobe_keyframes v = Some stdout → parse_keyframes stdout ≠ [] →
  ∃ selected,
    (extract_keyframes v max_frames g).1 = Ok selected ∧
    NoDup selected ∧
    (∀ t, t ∈ selected → t ∈ parse_keyframes stdout) ∧
    length selected
    = if bool_decide (0 ≤ max_frames)%Z
      then Nat.min (Z.to_nat max_frames)
                   (length (remove_dups (parse_keyframes stdout)))
      else (length (remove_dups (parse_keyframes stdout))
            - Z.to_nat (- max_frames))%nat.
Proof.
  intros Hshuffle Hprobe Hne. unfold extract_keyframes.
  rewrite (probed_keyframes_some v stdout Hprobe Hne).
  pose proof (Hshuffle (np_random_seed 42)
                (sorted_set (parse_keyframes stdout))) as Hperm.
  destruct (np_random_shuffle _ _) as [shuffled g']. simpl in Hperm.
  rewrite sorted_set_Permutation in Hperm.
  eexists. split; [done|]. split; [|split].
  - eapply sublist_NoDup; [|apply slice_to_sublist].
    rewrite Hperm. apply NoDup_remove_dups.
  - intros t Ht. apply elem_of_remove_dups. rewrite <-Hperm.
    by eapply elem_of_slice_to.
  - by rewrite slice_to_length, (Permutation_length Hperm).
Qed.


Lemma extract_keyframes_short `{Libs} (v : video) (max_frames : Z)
    (g : rng_state) (keyframes_time : list string) :
  (max_frames < 2)%Z →
  (0 ≤ max_frames)%Z ∨ probed_keyframes v = None →
  (extract_keyframes v max_frames g).1 = Ok keyframes_time →
  (length keyframes_time < 2)%nat.
Proof.
  intros Hm Hcase. unfold extract_keyframes.
  destruct (probed_keyframes v) as [keyframes|] eqn:Hprobe.
  - destruct Hcase as [Hpos|?]; [|done].
    destruct (np_random_shuffle _ _) as [shuffled g']. simpl.
    intros [= <-]. rewrite slice_to_length, bool_decide_true by done. lia.
  - destruct (py_float (duration_text v)) as [duration|]; [|done].
    case_bool_decide; [done|]. simpl. intros [= <-].
    unfold uniform_grid. rewrite length_map, length_seqZ. lia.
Qed.

(** A run that asks for fewer than two timestamps never produces a mask:
    with [max_frames] 0 or 1, and with any [max_frames] below 2 when the
    video has no keyframe list, [main] ends in an error, which is the exit
    of lines 190-192, the [ValueError] of [float()] on the duration or the
    division by zero of line 65. *)
Theorem main_needs_two_timestamps `{Libs} (v : video) (max_frames : Z)
    (g : rng_state) :
  (max_frames < 2)%Z →
  (0 ≤ max_frames)%Z ∨ probed_keyframes v = None →
  ∃ e, (main v max_frames g).1 = Raise e ∧
    ((∃ n, e = SystemExit_too_few_frames n ∧ (n < 2)%nat) ∨
     e = ValueError_float (duration_text v) ∨
     e = ZeroDivisionError).
Proof.
  intros Hm Hcase.
  pose proof (extract_keyframes_short v max_frames g) as Hshort.
  unfold main.
  destruct (extract_keyframes v max_frames g) as [[keyframes_time|e] g']
    eqn:Hsel; cbn [rbind fst].
  - specialize (Hshort keyframes_time Hm Hcase eq_refl).
    pose proof (extract_frames_counter v keyframes_time 0 ∅) as Hcount.
    fold (extract_frames v keyframes_time ∅) in Hcount.
    destruct (extract_frames v keyframes_time ∅) as [frame_count tmpdir].
    simpl in Hcount.
    pose proof (length_filter (λ ts, parses ts) keyframes_time) as Hle.
    rewrite bool_decide_true by lia.
    eexists. split; [done|]. left. eexists. split; [done|]. lia.
  - exists e. split; [done|]. right.
    unfold extract_keyframes in Hsel.
    destruct (probed_keyframes v).
    { by destruct (np_random_shuffle _ _). }
    destruct (py_float (duration_text v)); [|left; congruence].
    case_bool_decide; [right; congruence|done].
Qed.

(** ** Reading the keyframe probe *)

Lemma string_app_assoc (a b c : string) : (a +:+ b) +:+ c = a +:+ (b +:+ c).
Proof.
  induction a as [|x a IH]; [done|]. rewrite !string_app_cons. by rewrite IH.
Qed.

Lemma split_char_not_nil (sep : ascii) (s : string) : split_char sep s ≠ [].
Proof.
  destruct s as [|c s]; [done|]. simpl.
  destruct (Ascii.eqb c sep); [done|]. by destruct (split_char sep s).
Qed.

Lemma split_char_single_cons (sep c : ascii) (s : string) :
  c ≠ sep → split_char sep s = [s] →
  split_char sep (String c s) = [String c s].
Proof.
  intros Hc Hs. simpl. rewrite (proj2 (Ascii.eqb_neq c sep) Hc). by rewrite Hs.
Qed.

Lemma split_char_app (sep : ascii) (a b : string) :
  split_char sep a = [a] →
  split_char sep (a +:+ String sep b) = a :: split_char sep b.
Proof.
  induction a as [|c a IH]; intros Ha.
  - change (EmptyString +:+ String sep b) with (String sep b).
    simpl. by rewrite Ascii.eqb_refl.
  - rewrite string_app_cons. simpl in *.
    destruct (Ascii.eqb c sep); [done|].
    destruct (split_char sep a) as [|part parts] eqn:Hsplit.
    { by destruct (split_char_not_nil sep a). }
    injection Ha as -> ->. by rewrite IH.
Qed.

Ltac decide_ascii :=
  repeat match goal with
    | |- context [ascii_dec ?a ?b] =>
        destruct (ascii_dec a b); try discriminate; try congruence
    end.

Lemma keyframe_line_single (t : string) :
  split_char newline t = [t] →
  split_char newline ("pkt_dts_time=" +:+ t) = ["pkt_dts_time=" +:+ t].
Proof.
  intros Ht.
  change ("pkt_dts_time=" +:+ t)
    with (String "p" (String "k" (String "t" (String "_" (String "d"
           (String "t" (String "s" (String "_" (String "t" (String "i"
           (String "m" (String "e" (String "=" t))))))))))))).
  repeat (apply split_char_single_cons; [by vm_compute|]). done.
Qed.

Lemma keyframe_line_value (t : string) :
  split_char "=" t = [t] →
  nth 1 (split_char "=" ("pkt_dts_time=" +:+ t)) EmptyString = t.
Proof.
  intros Ht.
  change ("pkt_dts_time=" +:+ t) with ("pkt_dts_time" +:+ String "=" t).
  by rewrite split_char_app, Ht.
Qed.

Lemma keyframe_line_selected (t : string) :
  String.prefix "pkt_dts_time=" ("pkt_dts_time=" +:+ t) = true ∧
  contains "N/A" ("pkt_dts_time=" +:+ t) = contains "N/A" t.
Proof.
  change ("pkt_dts_time=" +:+ t)
    with (String "p" (String "k" (String "t" (String "_" (String "d"
           (String "t" (String "s" (String "_" (String "t" (String "i"
           (String "m" (String "e" (String "=" t))))))))))))).
  split.
  - cbn [String.prefix]. decide_ascii. by destruct t.
  - do 13 (cbn [contains String.prefix]; decide_ascii; cbn [orb]). done.
Qed.

(** The parse of one block of the probe output followed by [out]. *)
Lemma parse_keyframes_block (t out : string) :
  split_char newline t = [t] →
  parse_keyframes
    ("[FRAME]" +:+ String newline
       ("pkt_dts_time=" +:+ t +:+ String newline
          ("[/FRAME]" +:+ String newline out)))
  = (if contains "N/A" t then []
     else [strip (nth 1 (split_char "=" ("pkt_dts_time=" +:+ t))
                    EmptyString)])
    ++ parse_keyframes out.
Proof.
  intros Ht. unfold parse_keyframes.
  rewrite (split_char_app newline "[FRAME]") by done.
  rewrite <-string_app_assoc.
  rewrite (split_char_app newline ("pkt_dts_time=" +:+ t))
    by by apply keyframe_line_single.
  rewrite (split_char_app newline "[/FRAME]") by done.
  destruct (keyframe_line_selected t) as [Hprefix Hna].
  rewrite filter_cons_False by (by vm_compute).
  destruct (contains "N/A" t) eqn:Hc.
  - rewrite filter_cons_False by (rewrite Hprefix, Hna; by vm_compute).
    by rewrite filter_cons_False by (by vm_compute).
  - rewrite filter_cons_True by (rewrite Hprefix, Hna; by vm_compute).
    by rewrite filter_cons_False by (by vm_compute).
Qed.

(** Reading back what ffprobe prints: from the blocks of a list of
    keyframes, lines 43-47 of [extract_keyframes] recover the timestamps in
    the order of the blocks and leave out those printed as [N/A]. *)
Theorem parse_keyframes_keyframe_lines (ts : list string) :
  Forall (λ t, plain_timestamp t ∨ t = "N/A") ts →
  parse_keyframes (keyframe_lines ts) = filter (λ t, t ≠ "N/A") ts.
Proof.
  induction 1 as [|t ts Ht _ IH]; [done|].
  cbn [keyframe_lines foldr]. fold (keyframe_lines ts).
  destruct Ht as [(Hnl & Heq & Hstrip & Hna)| ->].
  - rewrite parse_keyframes_block, Hna, IH by done.
    rewrite keyframe_line_value, Hstrip by done.
    rewrite filter_cons_True; [done|]. intros ->. by vm_compute in Hna.
  - rewrite parse_keyframes_block, IH by done.
    by rewrite filter_cons_False by (intros Hne; by apply Hne).
Qed.

(** ** From the requested timestamps to the frames read back *)

Lemma read_frames_Permutation (c : nat) (d : directory) :
  names_below c d → read_frames d ≡ₚ map snd (map_to_list d).
Proof.
  intros Hd. unfold read_frames.
  rewrite merge_sort_Permutation, filter_Forall_id; [done|].
  rewrite Forall_forall. intros [name png] Hin%elem_of_map_to_list.
  destruct (Hd name) as (k & _ & ->); [by rewrite Hin|].
  simpl. by rewrite glob_output_name.
Qed.

Section read_back.
Context `{Libs} (v : video).

Lemma decoded_frames_cons (ts : string) (l : list string) :
  decoded_frames v (ts :: l)
  = match py_float ts with
    | Some t =>
        match ffmpeg_frame v t with
        | Some png => png :: decoded_frames v l
        | None => decoded_frames v l
        end
    | None => decoded_frames v l
    end.
Proof.
  unfold decoded_frames. cbn [omap list_omap].
  destruct (py_float ts) as [t|]; [|done]. simpl.
  by destruct (ffmpeg_frame v t).
Qed.

Lemma extract_frames_contents (l : list string) (c : nat) (d : directory) :
  names_below c d →
  map snd (map_to_list (foldl (extract_frame v) (c, d) l).2)
  ≡ₚ decoded_frames v l ++ map snd (map_to_list d).
Proof.
  revert c d. induction l as [|ts l IH]; intros c d Hd; [done|].
  cbn [foldl]. rewrite extract_frame_unfold, decoded_frames_cons.
  destruct (py_float ts) as [t|] eqn:Hts.
  - destruct (ffmpeg_frame v t) as [png|] eqn:Hpng.
    + rewrite IH.
      * rewrite map_to_list_insert by by apply names_below_fresh.
        simpl. by rewrite Permutation_middle.
      * intros name [Hin|Hin]%lookup_insert_is_Some.
        -- exists c. split; [lia|done].
        -- destruct Hin as [_ Hin]. apply Hd in Hin as (k & ? & ->).
           exists k. split; [lia|done].
    + apply IH. eapply names_below_mono; [|done]. lia.
  - by apply IH.
Qed.

Lemma decoded_frames_length (l : list string) :
  length (decoded_frames v l) = length (filter (λ ts, decodes v ts) l).
Proof.
  induction l as [|ts l IH]; [done|].
  rewrite decoded_frames_cons. unfold decodes at 1.
  destruct (py_float ts) as [t|] eqn:Hts.
  - destruct (ffmpeg_frame v t) as [png|] eqn:Hpng.
    + rewrite filter_cons_True; [simpl; by rewrite IH|].
      unfold decodes. rewrite Hts, Hpng. by apply bool_decide_pack.
    + rewrite filter_cons_False; [done|].
      unfold decodes. rewrite Hts, Hpng. intros ?%bool_decide_unpack.
      by eapply is_Some_None.
  - rewrite filter_cons_False; [done|].
    unfold decodes. rewrite Hts. simpl. tauto.
Qed.

End read_back.

(** Writing the frames and reading them back: after [extract_frames] on a
    fresh directory, the frames that [extract_watermark_mask] reads are, up
    to their order, the images that ffmpeg wrote for the requested
    timestamps, each once. *)
Theorem read_frames_extract_frames `{Libs} (v : video)
    (keyframes_time : list string) :
  read_frames (extract_frames v keyframes_time ∅).2
  ≡ₚ decoded_frames v keyframes_time.
Proof.
  unfold extract_frames.
  assert (names_below 0 (∅ : directory)) as Hempty.
  { intros name [png Hpng]. by rewrite lookup_empty in Hpng. }
  destruct (extract_frames_directory v keyframes_time 0 ∅ Hempty) as [Hn _].
  rewrite (read_frames_Permutation _ _ Hn).
  rewrite (extract_frames_contents v keyframes_time 0 ∅ Hempty).
  by rewrite map_to_list_empty, app_nil_r.
Qed.



Section directory_contents.
Context `{Libs} (v : video).

Lemma names_below_absent (c k : nat) (d : directory) :
  names_below c d → (c ≤ k)%nat → d !! output_name k = None.
Proof.
  intros Hd Hk. destruct (d !! output_name k) eqn:Hlook; [|done].
  destruct (Hd (output_name k)) as (k' & Hk' & Heq); [by rewrite Hlook|].
  apply (inj output_name) in Heq. lia.
Qed.

Lemma extract_frames_lookup (l : list string) (c : nat) (d : directory)
    (k : nat) :
  names_below c d →
  (foldl (extract_frame v) (c, d) l).2 !! output_name k
  = if decide (k < c)%nat then d !! output_name k
    else ts ← filter (λ ts, parses ts) l !! (k - c)%nat;
         t ← py_float ts; ffmpeg_frame v t.
Proof.
  revert c d. induction l as [|ts l IH]; intros c d Hd.
  { simpl. case_decide; [done|]. apply (names_below_absent c); [done|lia]. }
  cbn [foldl]. rewrite extract_frame_unfold.
  destruct (py_float ts) as [t|] eqn:Hts.
  - rewrite filter_cons_True
      by (unfold parses; rewrite Hts; by apply bool_decide_pack).
    rewrite IH.
    + destruct (decide (k < c)%nat) as [Hlt|Hge].
      * rewrite decide_True by lia.
        destruct (ffmpeg_frame v t); [|done].
        rewrite lookup_insert_ne; [done|]. intros ?%(inj output_name). lia.
      * destruct (decide (k = c)) as [->|Hne].
        -- rewrite decide_True by lia. rewrite Nat.sub_diag. simpl.
           rewrite Hts. simpl.
           destruct (ffmpeg_frame v t); [by rewrite lookup_insert_eq|].
           by apply names_below_fresh.
        -- rewrite decide_False by lia.
           replace (k - c)%nat with (S (k - S c)) by lia. done.
    + destruct (ffmpeg_frame v t).
      * intros name [Hin|Hin]%lookup_insert_is_Some.
        -- exists c. split; [lia|done].
        -- destruct Hin as [_ Hin]. apply Hd in Hin as (k' & ? & ->).
           exists k'. split; [lia|done].
      * eapply names_below_mono; [|done]. lia.
  - rewrite filter_cons_False; [by apply IH|].
    unfold parses. rewrite Hts. intros ?%bool_decide_unpack.
    by eapply is_Some_None.
Qed.

End directory_contents.

(** What [extract_frames] leaves in a fresh directory: the file
    [output_k.png] holds the image decoded for the entry number [k] among
    those that [float()] accepts, and is absent when nothing was decoded for
    that entry; entries that are not numbers take no number, and the
    directory holds no other file. *)
Theorem extract_frames_files `{Libs} (v : video)
    (keyframes_time : list string) :
  (∀ k, (extract_frames v keyframes_time ∅).2 !! output_name k
        = ts ← filter (λ ts, parses ts) keyframes_time !! k;
          t ← py_float ts; ffmpeg_frame v t) ∧
  (∀ name, is_Some ((extract_frames v keyframes_time ∅).2 !! name) →
     ∃ k, (k < (extract_frames v keyframes_time ∅).1)%nat ∧
          name = output_name k).
Proof.
  assert (names_below 0 (∅ : directory)) as Hempty.
  { intros name [png Hpng]. by rewrite lookup_empty in Hpng. }
  split.
  - intros k. unfold extract_frames.
    rewrite (extract_frames_lookup v keyframes_time 0 ∅ k Hempty).
    by rewrite decide_False, Nat.sub_0_r by lia.
  - by destruct (extract_frames_directory v keyframes_time 0 ∅ Hempty).
Qed.

Lemma filter_fst_NoDup {X} (P : string * X → Prop)
    `{∀ kv, Decision (P kv)} (l : list (string * X)) :
  NoDup (map fst l) → NoDup (map fst (filter P l)).
Proof.
  induction l as [|kv l IH]; [done|]. simpl.
  intros [Hnotin Hnodup]%NoDup_cons.
  destruct (decide (P kv)).
  - rewrite filter_cons_True by done. simpl. apply NoDup_cons.
    split; [|by apply IH]. intros Hin. apply Hnotin.
    apply list_elem_of_In, in_map_iff in Hin as (kv' & Heq & Hin).
    apply list_elem_of_In, in_map_iff. exists kv'. split; [done|].
    apply list_elem_of_In.
    by apply list_elem_of_In, list_elem_of_filter in Hin as [_ ?].
  - rewrite filter_cons_False by done. by apply IH.
Qed.

(** [extract_watermark_mask] reads exactly the files of the directory whose
    name matches [output_*.png], each once, whatever else the directory
    holds. *)
Theorem read_frames_matching_files (tmpdir : directory) :
  (∀ png, png ∈ read_frames tmpdir ↔
          ∃ name, glob_output_png name = true ∧ tmpdir !! name = Some png) ∧
  length (read_frames tmpdir)
  = size (filter (λ kv : string * frame, glob_output_png kv.1) tmpdir).
Proof.
  split; [apply elem_of_read_frames|].
  unfold read_frames. rewrite length_map, merge_sort_Permutation.
  rewrite map_filter_alt, <-length_map_to_list.
  rewrite map_to_list_to_map; [done|].
  change (fmap fst ?l) with (map fst l).
  apply filter_fst_NoDup.
  change (map fst ?l) with (fmap fst l). apply NoDup_fst_map_to_list.
Qed.

(** ** The reference instances, continued *)

Lemma list_delete_insert {X} (l : list X) (i : nat) (x : X) :
  delete i (<[i:=x]> l) = delete i l.
Proof.
  revert i. induction l as [|y l IH]; intros [|i]; simpl; try done.
  by rewrite IH.
Qed.

Lemma list_insert_Permutation {X} (l : list X) (i : nat) (x a : X) :
  l !! i = Some a → <[i:=x]> l ≡ₚ x :: delete i l.
Proof.
  intros Hi. rewrite <-(list_delete_insert l i x).
  apply delete_Permutation, list_lookup_insert_eq.
  by eapply lookup_lt_Some.
Qed.

Lemma swap_Permutation (i j : nat) (l : list string) : swap i j l ≡ₚ l.
Proof.
  unfold swap. destruct (l !! i) as [a|] eqn:Hi; [|done].
  destruct (l !! j) as [b|] eqn:Hj; [|done].
  assert ((<[j:=a]> l) !! i = Some a) as Hi'.
  { destruct (decide (i = j)) as [->|Hne].
    - apply list_lookup_insert_eq. by eapply lookup_lt_Some.
    - by rewrite list_lookup_insert_ne. }
  etrans; [apply (list_insert_Permutation _ i b a Hi')|].
  etrans; [|symmetry; apply (delete_Permutation l j b Hj)].
  apply Permutation_skip.
  apply (Permutation_cons_inv (a:=a)).
  etrans; [symmetry; apply (delete_Permutation _ i a Hi')|].
  apply (list_insert_Permutation l j a b Hj).
Qed.

Lemma lcg_shuffle_from_Permutation (i : nat) (g : Z) (l : list string) :
  (lcg_shuffle_from i g l).1 ≡ₚ l.
Proof.
  revert g l. induction i as [|i IH]; intros g l; [done|].
  cbn [lcg_shuffle_from]. rewrite IH. apply swap_Permutation.
Qed.

Lemma reference_shuffle_permutes : @shuffle_permutes reference_libs.
Proof. intros g l. apply lcg_shuffle_from_Permutation. Qed.

Lemma kernel3_same (v : Qc) : kernel3 v v v = v.
Proof.
  unfold kernel3.
  assert (Qc_of_Z 4 ≠ 0) by (rewrite <-Z2Qc_inj_0; by intros ?%Z2Qc_inj).
  assert (Qc_of_Z 4 = 1 + 1 + 1 + 1) as Heq.
  { change 4%Z with (1 + 1 + 1 + 1)%Z.
    by rewrite !Z2Qc_inj_add, Z2Qc_inj_1. }
  rewrite Heq in *. by field.
Qed.

Lemma smooth3_uniform {A} (P : A → Prop) (comb : A → A → A → A) (d : A)
    (l : list A) :
  (∀ a b c, P a → P b → P c → P (comb a b c)) →
  Forall P l → Forall P (smooth3 comb d l).
Proof.
  intros Hcomb Hl. unfold smooth3. apply Forall_map, Forall_forall.
  intros i [_ Hi]%elem_of_seq. simpl in Hi.
  assert (∀ k, (k < length l)%nat → P (nth k l d)) as Hnth.
  { intros k Hk. rewrite Forall_forall in Hl.
    by apply Hl, list_elem_of_In, nth_In. }
  apply Hcomb; apply Hnth; lia.
Qed.

Lemma kernel3_rows_uniform (v : Qc) (a b c : row) :
  Forall (eq v) a → Forall (eq v) b → Forall (eq v) c →
  Forall (eq v) (kernel3_rows a b c).
Proof.
  intros Ha. revert b c. unfold kernel3_rows.
  induction Ha as [|x a <- _ IH]; intros b c Hb Hc; [constructor|].
  destruct Hb as [|y b <- Hb]; [constructor|].
  destruct Hc as [|z c <- Hc]; [constructor|].
  simpl. constructor; [by rewrite kernel3_same|by apply IH].
Qed.

Lemma binomial_filter_uniform : uniform_preserving binomial_filter.
Proof.
  intros x sigma v Hx. unfold binomial_filter, uniform in *.
  apply smooth3_uniform; [apply kernel3_rows_uniform|].
  apply Forall_map. eapply Forall_impl; [done|]. intros r Hr. simpl.
  apply smooth3_uniform; [|done]. intros a b c <- <- <-.
  by rewrite kernel3_same.
Qed.

(** ** The further properties on sample inputs *)

Lemma sample_field_not_uniform : ¬ all_equal sample_field.
Proof.
  intros Hall. specialize (Hall (Qc_of_Z 1) (Qc_of_Z 3)).
  apply Z2Qc_inj in Hall; [done|by left|by right; left].
Qed.

Lemma normalize_unit_range_witness :
  ¬ all_equal sample_field ∧
  ∃ n, normalize sample_field = Ok n ∧
    (∀ e, e ∈ concat n → 0 ≤ e ≤ 1) ∧
    np_min n = Ok 0 ∧ np_max n = Ok 1.
Proof.
  split; [apply sample_field_not_uniform|].
  apply (normalize_unit_range sample_field), sample_field_not_uniform.
Defined.

Lemma normalize_idempotent_witness :
  concat sample_field ≠ [] ∧
  ∃ n, normalize sample_field = Ok n ∧ normalize n = Ok n.
Proof.
  split; [discriminate|].
  apply (normalize_idempotent sample_field). discriminate.
Defined.

Lemma sample_gradients_shape :
  field_shape 2 2 sample_mean_dx ∧ field_shape 2 2 sample_mean_dy.
Proof. split; repeat constructor. Qed.

Lemma mask_of_gradients_content_witness :
  field_shape 2 2 sample_mean_dx ∧ field_shape 2 2 sample_mean_dy ∧
  ∃ m, @mask_of_gradients reference_libs sample_mean_dx sample_mean_dy
       = Ok m ∧
    0%Z ∈ concat m ∧
    (all_equal (binomial_filter
                  (salient_field sample_mean_dx sample_mean_dy) (Qc_of_Z 3)) →
     ∀ v, v ∈ concat m → v = 0%Z) ∧
    (¬ all_equal (binomial_filter
                    (salient_field sample_mean_dx sample_mean_dy)
                    (Qc_of_Z 3)) →
     255%Z ∈ concat m).
Proof.
  destruct sample_gradients_shape as [Hdx Hdy].
  do 2 (split; [done|]).
  apply (@mask_of_gradients_content reference_libs
           sample_mean_dx sample_mean_dy 2 2);
    [apply binomial_filter_shape|done|done|lia|lia].
Defined.

Lemma sample_mean_dy_below (i j : nat) :
  (i < 2)%nat → (j < 2)%nat →
  at2 sample_mean_dy i j ≤ threshold ∧ at2 sample_mean_dy i j ≤ threshold.
Proof.
  intros Hi Hj.
  destruct i as [|[|i]]; [| |lia]; (destruct j as [|[|j]]; [| |lia]);
    by vm_compute.
Qed.

Lemma mask_of_gradients_uniform_salience_witness :
  field_shape 2 2 sample_mean_dy ∧
  ∃ m, @mask_of_gradients reference_libs sample_mean_dy sample_mean_dy
       = Ok m ∧
       field_shape 2 2 m ∧ ∀ v, v ∈ concat m → v = 0%Z.
Proof.
  destruct sample_gradients_shape as [_ Hdy]. split; [done|].
  apply (@mask_of_gradients_uniform_salience reference_libs
           sample_mean_dy sample_mean_dy 2 2);
    [apply binomial_filter_shape|apply binomial_filter_uniform
    |done|done|lia|lia|].
  left. apply sample_mean_dy_below.
Defined.


Lemma logo_frames_shape :
  Forall (frame_shape 4 4 3) [frame_logo 10; frame_logo 30].
Proof. repeat constructor. Qed.



Lemma watermark_mask_brightness_offsets_witness :
  Forall (frame_shape 4 4 3) [frame_logo 10; frame_logo 30] ∧
  mean_gradients (zip_with brighten [5; 20]%Z [frame_logo 10; frame_logo 30])
  = mean_gradients [frame_logo 10; frame_logo 30] ∧
  @watermark_mask reference_libs
     (zip_with brighten [5; 20]%Z [frame_logo 10; frame_logo 30])
  = @watermark_mask reference_libs [frame_logo 10; frame_logo 30].
Proof.
  split; [apply logo_frames_shape|].
  apply (@watermark_mask_brightness_offsets reference_libs
           [frame_logo 10; frame_logo 30] [5; 20]%Z 4 4 3);
    [apply logo_frames_shape|done].
Defined.

Lemma up_down_eight_bit : Forall eight_bit [frame_up; frame_down].
Proof. repeat (constructor; try lia). Qed.

Lemma mean_gradients_eight_bit_range_witness :
  Forall (frame_shape 2 2 1) [frame_up; frame_down] ∧
  Forall eight_bit [frame_up; frame_down] ∧
  ∃ mean_dx mean_dy,
    mean_gradients [frame_up; frame_down] = Ok (mean_dx, mean_dy) ∧
    ∀ i j, (i < 2)%nat → (j < 2)%nat →
      (0 ≤ at2 mean_dx i j ∧ at2 mean_dx i j ≤ Qc_of_Z 255) ∧
      (0 ≤ at2 mean_dy i j ∧ at2 mean_dy i j ≤ Qc_of_Z 255).
Proof.
  assert (Forall (frame_shape 2 2 1) [frame_up; frame_down]) as Hshape
    by repeat constructor.
  split; [done|]. split; [apply up_down_eight_bit|].
  apply (mean_gradients_eight_bit_range [frame_up; frame_down] 2 2 1);
    [done|done|apply up_down_eight_bit|lia|lia].
Defined.

Lemma extract_keyframes_selects_keyframes_witness :
  ffprobe_keyframes keyframe_video = Some keyframe_video_stdout ∧
  parse_keyframes keyframe_video_stdout ≠ [] ∧
  ∃ selected,
    (@extract_keyframes reference_libs keyframe_video 2 0%Z).1
    = Ok selected ∧
    NoDup selected ∧
    (∀ t, t ∈ selected → t ∈ parse_keyframes keyframe_video_stdout) ∧
    length selected
    = if bool_decide (0 ≤ 2)%Z
      then Nat.min (Z.to_nat 2)
             (length (remove_dups (parse_keyframes keyframe_video_stdout)))
      else (length (remove_dups (parse_keyframes keyframe_video_stdout))
            - Z.to_nat (- 2))%nat.
Proof.
  assert (parse_keyframes keyframe_video_stdout ≠ []) as Hne
    by (by vm_compute).
  split; [done|]. split; [done|].
  by apply (@extract_keyframes_selects_keyframes reference_libs
              keyframe_video 2 0%Z keyframe_video_stdout
              reference_shuffle_permutes).
Defined.



Lemma main_needs_two_timestamps_witness :
  ∃ e, (@main reference_libs keyframe_video 1 0%Z).1 = Raise e ∧
    ((∃ n, e = SystemExit_too_few_frames n ∧ (n < 2)%nat) ∨
     e = ValueError_float (duration_text keyframe_video) ∨
     e = ZeroDivisionError).
Proof.
  apply (@main_needs_two_timestamps reference_libs keyframe_video 1 0%Z);
    [lia|left; lia].
Defined.

Example main_one_timestamp :
  (@main reference_libs keyframe_video 1 0%Z).1
  = Raise (SystemExit_too_few_frames 1).
Proof. by vm_compute. Qed.

Lemma sample_keyframes_plain :
  Forall (λ t, plain_timestamp t ∨ t = "N/A") sample_keyframes.
Proof.
  repeat constructor; first [by right | left; by repeat split].
Qed.

Lemma parse_keyframes_keyframe_lines_witness :
  Forall (λ t, plain_timestamp t ∨ t = "N/A") sample_keyframes ∧
  parse_keyframes (keyframe_lines sample_keyframes)
  = filter (λ t, t ≠ "N/A") sample_keyframes.
Proof.
  split; [apply sample_keyframes_plain|].
  apply (parse_keyframes_keyframe_lines sample_keyframes),
    sample_keyframes_plain.
Defined.

Example parse_keyframes_sample :
  parse_keyframes (keyframe_lines sample_keyframes)
  = ["0.000000"; "2.500000"].
Proof. by vm_compute. Qed.


